(** * terraform-provider-bigippg: field validators and session factory

    A shallow embedding of [bigippg/validators.go] and of the provider's
    [Config.Client] / [validateConnection], with the properties of the
    provider's specification stated and settled against it.

    Conventions.
    - Package [regexp] reads a Go [string] one rune at a time.  The
      strings the validators see are Terraform configuration values, that
      is UTF-8 text, and such a string is determined by its runes: a Go
      string is modelled by its rune sequence ([GoString]).
      [strings.Count(v, ":")] counts an ASCII byte, which occurs in a
      string exactly where the decoder yields that rune.
    - [fmt.Errorf(format, args...)] is kept unevaluated: an [error] is the
      format string together with its arguments.
    - Package [regexp], [schema.Set] and the [bigip] client are external to
      the repository; they are modelled to the extent the repository uses
      them. *)

From Stdlib Require Import NArith Bool Ascii String List Lia.
From stdpp Require Import base decidable option list countable gmap.
Import ListNotations.

Local Open Scope N_scope.
Local Open Scope list_scope.

(** ** Go strings *)

Definition rune := N.
Definition GoString := list rune.

(** The rune sequence of an ASCII literal. *)
Fixpoint runes (s : string) : GoString :=
  match s with
  | EmptyString => []
  | String a s' => N_of_ascii a :: runes s'
  end.

Definition rune_eqb (a b : rune) : bool := N.eqb a b.

Definition is_empty (s : GoString) : bool :=
  match s with [] => true | _ :: _ => false end.

(** [strings.Count(v, sep)] for a one-rune separator. *)
Fixpoint strings_Count (v : GoString) (sep : rune) : nat :=
  match v with
  | [] => O
  | c :: v' => (if rune_eqb c sep then 1%nat else 0%nat) + strings_Count v' sep
  end.

(** ** Package regexp (RE2 syntax, Perl flags), as far as the patterns of
    validators.go need it *)

Module Regexp.

(** Members of a bracket expression. *)
Inductive item : Type :=
  | IRune (c : rune)          (* a literal rune, also an escaped one: \- *)
  | IRange (lo hi : rune)     (* lo-hi *)
  | IWord                     (* \w = [0-9A-Za-z_] *)
  | IDigit                    (* \d = [0-9] *)
  | ISpace.                   (* \s = [\t\n\f\r ] *)

(** A bracket expression; [\d] alone is the class [[0-9]]. *)
Inductive class : Type :=
  | Class (negated : bool) (items : list item).

(** The operators of regexp/syntax that the patterns use.  The parser
    turns [^] and [$] into OpBeginText and OpEndText, and into OpBeginLine
    and OpEndLine while flag m is on; a literal parsed while flag i is on
    carries FoldCase.  The operand of every [+] in the file is a
    character class. *)
Inductive regex : Type :=
  | Literal (fold : bool) (l : list rune)   (* OpLiteral *)
  | CharClass (c : class)                   (* OpCharClass *)
  | AnyCharNotNL                            (* OpAnyCharNotNL: . *)
  | Plus (c : class)                        (* OpPlus *)
  | BeginText
  | EndText
  | BeginLine
  | EndLine
  | Capture (r : regex)
  | Concat (r1 r2 : regex)
  | Alternate (r1 r2 : regex).

Definition in_range (lo hi c : rune) : bool := (lo <=? c) && (c <=? hi).

Definition is_digit (c : rune) : bool := in_range 48 57 c.
Definition is_upper (c : rune) : bool := in_range 65 90 c.
Definition is_lower (c : rune) : bool := in_range 97 122 c.
Definition is_word (c : rune) : bool :=
  is_digit c || is_upper c || is_lower c || rune_eqb c 95.
Definition is_space (c : rune) : bool :=
  rune_eqb c 9 || rune_eqb c 10 || rune_eqb c 12 || rune_eqb c 13 || rune_eqb c 32.

Definition item_matches (i : item) (c : rune) : bool :=
  match i with
  | IRune x => rune_eqb c x
  | IRange lo hi => in_range lo hi c
  | IWord => is_word c
  | IDigit => is_digit c
  | ISpace => is_space c
  end.

(** With flag ClassNL (part of the Perl flags [regexp.Compile] parses
    with) a negated class matches a newline like any other rune. *)
Definition class_matches (cl : class) (c : rune) : bool :=
  match cl with
  | Class neg items => xorb neg (existsb (fun i => item_matches i c) items)
  end.

(** [unicode.SimpleFold] orbits of the ASCII letters: the two cases, and
    additionally U+212A (KELVIN SIGN) for k and U+017F (LONG S) for s. *)
Definition to_lower (c : rune) : rune := if is_upper c then c + 32 else c.

Definition fold_key (c : rune) : rune :=
  if rune_eqb c 8490 then 107
  else if rune_eqb c 383 then 115
  else to_lower c.

Definition fold_eqb (a b : rune) : bool := rune_eqb (fold_key a) (fold_key b).

Definition literal_matches (fold : bool) (x c : rune) : bool :=
  if fold then fold_eqb c x else rune_eqb c x.

(** Empty-width conditions, from the text before and after the position
    (regexp/syntax.EmptyOpContext). *)
Definition at_begin_text (pre : list rune) : bool := is_empty pre.
Definition at_end_text (s : list rune) : bool := is_empty s.
Definition at_begin_line (pre : list rune) : bool :=
  match pre with [] => true | c :: _ => rune_eqb c 10 end.
Definition at_end_line (s : list rune) : bool :=
  match s with [] => true | c :: _ => rune_eqb c 10 end.

(** A backtracking matcher in continuation-passing style.  [pre] is the
    text before the current position, most recent rune first; [s] is the
    text from the current position on. *)
Definition cont := list rune -> list rune -> bool.

Fixpoint run_literal (fold : bool) (l : list rune) (k : cont)
    (pre s : list rune) : bool :=
  match l with
  | [] => k pre s
  | x :: l' =>
      match s with
      | [] => false
      | c :: s' => literal_matches fold x c && run_literal fold l' k (c :: pre) s'
      end
  end.

Fixpoint run_plus (p : rune -> bool) (k : cont) (pre s : list rune) : bool :=
  match s with
  | [] => false
  | c :: s' => p c && (k (c :: pre) s' || run_plus p k (c :: pre) s')
  end.

Fixpoint run (r : regex) (pre s : list rune) (k : cont) : bool :=
  match r with
  | Literal fold l => run_literal fold l k pre s
  | CharClass cl =>
      match s with
      | [] => false
      | c :: s' => class_matches cl c && k (c :: pre) s'
      end
  | AnyCharNotNL =>
      match s with
      | [] => false
      | c :: s' => negb (rune_eqb c 10) && k (c :: pre) s'
      end
  | Plus cl => run_plus (class_matches cl) k pre s
  | BeginText => at_begin_text pre && k pre s
  | EndText => at_end_text s && k pre s
  | BeginLine => at_begin_line pre && k pre s
  | EndLine => at_end_line s && k pre s
  | Capture r1 => run r1 pre s k
  | Concat r1 r2 => run r1 pre s (fun pre' s' => run r2 pre' s' k)
  | Alternate r1 r2 => run r1 pre s k || run r2 pre s k
  end.

Definition accept : cont := fun _ _ => true.

(** The unanchored search of [Regexp.MatchString]: some position of the
    text starts a match. *)
Fixpoint search (r : regex) (pre s : list rune) : bool :=
  run r pre s accept ||
  match s with
  | [] => false
  | c :: s' => search r (c :: pre) s'
  end.

(** [regexp.MatchString(pattern, s)] for a pattern that compiles to [r];
    the compile error the callers drop is nil for every pattern here. *)
Definition MatchString (r : regex) (s : GoString) : bool := search r [] s.

(** *** Declarative reading

    [matches r pre u post]: [r] matches the text [u] found between [pre]
    (reversed) and [post]. *)
Fixpoint matches (r : regex) (pre u post : list rune) : Prop :=
  match r with
  | Literal fold l => Forall2 (fun x c => literal_matches fold x c = true) l u
  | CharClass cl => exists c, u = [c] /\ class_matches cl c = true
  | AnyCharNotNL => exists c, u = [c] /\ c <> 10
  | Plus cl => u <> [] /\ Forall (fun c => class_matches cl c = true) u
  | BeginText => u = [] /\ pre = []
  | EndText => u = [] /\ post = []
  | BeginLine => u = [] /\ at_begin_line pre = true
  | EndLine => u = [] /\ at_end_line post = true
  | Capture r1 => matches r1 pre u post
  | Concat r1 r2 =>
      exists u1 u2, u = u1 ++ u2 /\
        matches r1 pre u1 (u2 ++ post) /\ matches r2 (rev u1 ++ pre) u2 post
  | Alternate r1 r2 => matches r1 pre u post \/ matches r2 pre u post
  end.

End Regexp.

Import Regexp.

(** ** Errors and validator inputs *)

(** Arguments of a format string. *)
Inductive arg : Type :=
  | AString (s : GoString)           (* a string, printed with %q *)
  | AStrings (l : list GoString)     (* a slice of strings, printed with %v *)
  | AType (t : string).              (* reflect.TypeOf(value), printed with %v *)

(** [fmt.Errorf(format, args...)]. *)
Inductive error : Type :=
  | Errorf (format : string) (args : list arg).

(** The dynamic types a [value interface{}] is switched on.  A
    [*schema.Set] is identified with the finite set of its elements (the
    SDK keys a set by the hash codes of its elements; two elements with one
    hash code are not modelled), and the pointer shapes with their
    targets. *)
Inductive value : Type :=
  | VSet (s : gset GoString)          (* *schema.Set *)
  | VStrings (l : list GoString)      (* []string *)
  | VStringsPtr (l : list GoString)   (* *[]string *)
  | VString (s : GoString)            (* string *)
  | VOther (t : string).              (* anything else, with its type *)

(** [schema.Set]: Intersection, Len and List. *)
Definition Set_Intersection (s t : gset GoString) : gset GoString := s ∩ t.
Definition Set_Len (s : gset GoString) : nat := size s.
Definition Set_List (s : gset GoString) : list GoString := elements s.

(** Modelled from the spec: [setToStringSlice] is defined elsewhere in the
    package; the specification has it reduce a set of strings to an
    ordered sequence of strings. *)
Definition setToStringSlice (s : gset GoString) : list GoString := Set_List s.

(** What a validator returns: [(ws []string, errors []error)]. *)
Definition diagnostics : Type := list GoString * list error.

(** A [schema.SchemaValidateFunc]; [None] stands for a failed type
    assertion, which panics. *)
Definition SchemaValidateFunc : Type := value -> GoString -> option diagnostics.

(** ** validators.go *)

Fixpoint GoString_eqb (a b : GoString) : bool :=
  match a, b with
  | [], [] => true
  | x :: a', y :: b' => rune_eqb x y && GoString_eqb a' b'
  | _, _ => false
  end.

Definition validateSetValues (valid : gset GoString) : SchemaValidateFunc :=
  fun value field =>
    match value with
    | VSet s =>
        if negb (Nat.eqb (Set_Len (Set_Intersection valid s)) (Set_Len s))
        then Some ([], [Errorf "%q can only contain %v"
                          [AString field; AStrings (Set_List s)]])
        else Some ([], [])
    | _ => None
    end.

(** The loop of [validateStringValue]: [Some true] when it returns from
    inside the loop, [Some false] when it runs to the end; the assertion
    [value.(string)] is evaluated once per element. *)
Fixpoint validateStringValue_loop (values : list GoString) (value : value)
    : option bool :=
  match values with
  | [] => Some false
  | v :: values' =>
      match value with
      | VString s =>
          if GoString_eqb v s then Some true
          else validateStringValue_loop values' value
      | _ => None
      end
  end.

Definition validateStringValue (values : list GoString) : SchemaValidateFunc :=
  fun value field =>
    match validateStringValue_loop values value with
    | None => None
    | Some true => Some ([], [])
    | Some false =>
        Some ([], [Errorf "%q must be one of %v" [AString field; AStrings values]])
    end.

(** The type switch every validator below opens with; [fn] is the
    function name its default case prints. *)
Definition type_switch (fn : string) (value : value) : list GoString * list error :=
  match value with
  | VSet s => (setToStringSlice s, [])
  | VStrings l => (l, [])
  | VStringsPtr l => (l, [])
  | VString s => ([s], [])
  | VOther t => ([], [Errorf ("Unknown type %v in " ++ fn) [AType t]])
  end.

(** [for _, v := range values { ... errors = append(errors, ...) }] *)
Definition range_append (body : GoString -> list error) (values : list GoString)
    (errors : list error) : list error :=
  fold_left (fun errors v => errors ++ body v) values errors.

(** An OpConcat node over [rs]. *)
Fixpoint cat (rs : list regex) : regex :=
  match rs with
  | [] => Literal false []
  | [r] => r
  | r :: rs' => Concat r (cat rs')
  end.

(** An OpAlternate node over [r :: rs]. *)
Fixpoint alt (r : regex) (rs : list regex) : regex :=
  match rs with
  | [] => r
  | r' :: rs' => Alternate r (alt r' rs')
  end.

(** [^] and [$] as parsed while flag m is [multiline]. *)
Definition caret (multiline : bool) : regex := if multiline then BeginLine else BeginText.
Definition dollar (multiline : bool) : regex := if multiline then EndLine else EndText.

Definition word_dash_dot : class := Class false [IWord; IRune 95; IRune 45; IRune 46].
Definition word_dash_dot_colon : class :=
  Class false [IWord; IRune 95; IRune 45; IRune 46; IRune 58].
Definition digit : class := Class false [IDigit].

(** ^/[\w_\-.]+/[\w_\-.:]+$ *)
Definition re_F5Name : regex :=
  cat [BeginText; Literal false (runes "/"); Plus word_dash_dot;
       Literal false (runes "/"); Plus word_dash_dot_colon; EndText].

Definition validateF5Name (value : value) (field : GoString) : diagnostics :=
  let '(values, errors) := type_switch "validateF5Name" value in
  ([], range_append (fun v =>
         if negb (MatchString re_F5Name v)
         then [Errorf "%q must match /Partition/Name and contain letters, numbers or [._-:]. e.g. /Common/my-pool"
                 [AString field]]
         else []) values errors).

(** (^/[\w_\-.]+/[\w_\-.:]+/[\w_\-.:]+$)|(^/[\w_\-.]+/[\w_\-.:]+$) *)
Definition re_F5NameWithDirectory : regex :=
  Alternate
    (Capture (cat [BeginText; Literal false (runes "/"); Plus word_dash_dot;
                   Literal false (runes "/"); Plus word_dash_dot_colon;
                   Literal false (runes "/"); Plus word_dash_dot_colon; EndText]))
    (Capture (cat [BeginText; Literal false (runes "/"); Plus word_dash_dot;
                   Literal false (runes "/"); Plus word_dash_dot_colon; EndText])).

Definition validateF5NameWithDirectory (value : value) (field : GoString) : diagnostics :=
  let '(values, errors) := type_switch "validateF5Name" value in
  ([], range_append (fun v =>
         if negb (MatchString re_F5NameWithDirectory v)
         then [Errorf "%q must match /Partition/Name or /Partition/Directory/Name  e.g. /Common/my-node or /Common/test/my-node"
                 [AString field]]
         else []) values errors).

(** ^[^/][^\s]+$ *)
Definition re_PartitionName : regex :=
  cat [BeginText; CharClass (Class true [IRune 47]); Plus (Class true [ISpace]); EndText].

Definition validatePartitionName (value : value) (field : GoString) : diagnostics :=
  let '(values, errors) := type_switch "validatePartitionName" value in
  ([], range_append (fun v =>
         if negb (MatchString re_PartitionName v)
         then [Errorf "%q name should not start with `/`, e.g Common [or] test-partition are valid "
                 [AString field]]
         else []) values errors).

(** ^\/[\w_\-.]+\/[\w_\-.:]+.\d+$ *)
Definition re_PoolMember_path : regex :=
  cat [BeginText; Literal false (runes "/"); Plus word_dash_dot;
       Literal false (runes "/"); Plus word_dash_dot_colon;
       AnyCharNotNL; Plus digit; EndText].

(** ^[\w_\-.]+:\d+$ *)
Definition re_PoolMember_host : regex :=
  cat [BeginText; Plus word_dash_dot; Literal false (runes ":"); Plus digit; EndText].

Definition err_PoolMember_path (field : GoString) : error :=
  Errorf "%q must match /Partition/Node_Name:Port and contain letters, numbers or [:._-]. e.g. /Common/node1:80"
    [AString field].

Definition err_PoolMember_host (field : GoString) : error :=
  Errorf "%q must match Node-address:Port and Node Address is IP/FQDN. e.g. 1.1.1.1:80/www.google.com:80"
    [AString field].

Definition validatePoolMemberName (value : value) (field : GoString) : diagnostics :=
  let '(values, errors) := type_switch "validatePoolMemberName" value in
  ([], range_append (fun v =>
         if Nat.leb 2 (strings_Count v 58)
         then if negb (MatchString re_PoolMember_path v)
              then [err_PoolMember_path field] else []
         else if negb (MatchString re_PoolMember_host v)
              then [err_PoolMember_host field] else []) values errors).

(** ^enabled$|^disabled$ *)
Definition re_EnabledDisabled : regex :=
  alt (cat [caret false; Literal false (runes "enabled"); dollar false])
      [cat [caret false; Literal false (runes "disabled"); dollar false]].

Definition validateEnabledDisabled (value : value) (field : GoString) : diagnostics :=
  let '(values, errors) := type_switch "validateEnabledDisabled" value in
  ([], range_append (fun v =>
         if negb (MatchString re_EnabledDisabled v)
         then [Errorf "%q must match as enabled or disabled" [AString field]]
         else []) values errors).

(** ^required$|^preferred$|^disabled$ *)
Definition re_ReqPrefDisabled : regex :=
  alt (cat [caret false; Literal false (runes "required"); dollar false])
      [cat [caret false; Literal false (runes "preferred"); dollar false];
       cat [caret false; Literal false (runes "disabled"); dollar false]].

Definition validateReqPrefDisabled (value : value) (field : GoString) : diagnostics :=
  let '(values, errors) := type_switch "validateReqPrefDisabled" value in
  ([], range_append (fun v =>
         if negb (MatchString re_ReqPrefDisabled v)
         then [Errorf "%q must match as required, preferred, or disabled" [AString field]]
         else []) values errors).

(** ^string$|^ip$|^integer$ *)
Definition re_DataGroupType : regex :=
  alt (cat [caret false; Literal false (runes "string"); dollar false])
      [cat [caret false; Literal false (runes "ip"); dollar false];
       cat [caret false; Literal false (runes "integer"); dollar false]].

Definition validateDataGroupType (value : value) (field : GoString) : diagnostics :=
  let '(values, errors) := type_switch "validateDataGroupType" value in
  ([], range_append (fun v =>
         if negb (MatchString re_DataGroupType v)
         then [Errorf "%q must match as string, ip, or integer" [AString field]]
         else []) values errors).

(** (?mi)^Utility$|^regkey$ : the flag group sets m and i for the whole
    alternation. *)
Definition re_PoolLicenseType : regex :=
  alt (cat [caret true; Literal true (runes "Utility"); dollar true])
      [cat [caret true; Literal true (runes "regkey"); dollar true]].

Definition validatePoolLicenseType (value : value) (field : GoString) : diagnostics :=
  let '(values, errors) := type_switch "validatePoolLicenseType" value in
  ([], range_append (fun v =>
         if negb (MatchString re_PoolLicenseType v)
         then [Errorf "%q must match as Utility (or) Regkey" [AString field]]
         else []) values errors).

(** (?mi)^MANAGED$|^UNMANAGED$|^UNREACHABLE$ *)
Definition re_AssignmentType : regex :=
  alt (cat [caret true; Literal true (runes "MANAGED"); dollar true])
      [cat [caret true; Literal true (runes "UNMANAGED"); dollar true];
       cat [caret true; Literal true (runes "UNREACHABLE"); dollar true]].

Definition validateAssignmentType (value : value) (field : GoString) : diagnostics :=
  let '(values, errors) := type_switch "validatePoolLicenseType" value in
  ([], range_append (fun v =>
         if negb (MatchString re_AssignmentType v)
         then [Errorf "%q must match as MANAGED/UNMANAGED/UNREACHABLE" [AString field]]
         else []) values errors).

(** ** The session factory *)

(** A Go pointer, as far as the provider looks at one: nil, or the address
    of an object of package bigip. *)
Definition pointer : Type := option N.

(** A value of interface type [error]: nil or an error. *)
Definition error_value : Type := option error.

(** What [SelfIPs] returns beside its error, a [*bigip.SelfIPs]: nil, or a
    pointer to the self-IPs the device listed, which may be none.  The
    provider compares the pointer with nil and reads nothing of the
    list. *)
Definition SelfIPs : Type := option (list GoString).

Record Config : Type := {
  Address : GoString;
  Port : GoString;
  Username : GoString;
  Password : GoString;
  LoginReference : GoString;
  ConfigOptions : pointer
}.

(** The calls that leave the package, each with the type of its result. *)
Inductive Ext : Type -> Type :=
  | log_Println (line : string) : Ext unit
  | log_Printf (format : string) (args : list error) : Ext unit
  | bigip_NewTokenSession (host port user passwd loginProvider : GoString)
      (configOptions : pointer) : Ext (pointer * error_value)
  | bigip_NewSession (host port user passwd : GoString)
      (configOptions : pointer) : Ext pointer
  | BigIP_SelfIPs (b : pointer) : Ext (SelfIPs * error_value).

(** Code that performs such calls: it returns, or performs a call and
    goes on with the result. *)
Inductive Prog (A : Type) : Type :=
  | Ret (a : A)
  | Vis (X : Type) (e : Ext X) (k : X -> Prog A).

Arguments Ret {A} a.
Arguments Vis {A X} e k.

Fixpoint bind {A B : Type} (p : Prog A) (f : A -> Prog B) : Prog B :=
  match p with
  | Ret a => f a
  | Vis e k => Vis e (fun x => bind (k x) f)
  end.

Definition call {X : Type} (e : Ext X) : Prog X := Vis e Ret.

#[global] Instance Prog_ret : MRet Prog := fun A a => Ret a.
#[global] Instance Prog_bind : MBind Prog := fun A B f p => bind p f.

(** What an observer of the process sees of one call: the call and its
    result. *)
Inductive Obs : Type :=
  | ObsPrintln (line : string)
  | ObsPrintf (format : string) (args : list error)
  | ObsNewTokenSession (host port user passwd loginProvider : GoString)
      (configOptions : pointer) (b : pointer) (err : error_value)
  | ObsNewSession (host port user passwd : GoString) (configOptions : pointer)
      (b : pointer)
  | ObsSelfIPs (b : pointer) (t : SelfIPs) (err : error_value).

Definition observe {X : Type} (e : Ext X) : X -> Obs :=
  match e in Ext X return X -> Obs with
  | log_Println line => fun _ => ObsPrintln line
  | log_Printf format args => fun _ => ObsPrintf format args
  | bigip_NewTokenSession h p u pw l o => fun r => ObsNewTokenSession h p u pw l o (fst r) (snd r)
  | bigip_NewSession h p u pw o => fun b => ObsNewSession h p u pw o b
  | BigIP_SelfIPs b => fun r => ObsSelfIPs b (fst r) (snd r)
  end.

(** [exec p tr a]: [p] can perform the calls of [tr], in this order and
    with these results, and then return [a].  The results are not
    constrained: every outcome of every call is covered. *)
Fixpoint exec {A : Type} (p : Prog A) (tr : list Obs) (a : A) : Prop :=
  match p with
  | Ret a' => tr = [] /\ a = a'
  | Vis e k => exists x tr', tr = observe e x :: tr' /\ exec (k x) tr' a
  end.

(** The outside world as a function: the result of a call, given the
    calls made so far (most recent first). *)
Definition world : Type := forall X : Type, Ext X -> list Obs -> X.

(** Running [p] in a world: the calls made, most recent first, and the
    result. *)
Fixpoint interp {A : Type} (w : world) (p : Prog A) (past : list Obs) : list Obs * A :=
  match p with
  | Ret a => (past, a)
  | Vis e k => let x := w _ e past in interp w (k x) (observe e x :: past)
  end.

Definition nonempty (s : GoString) : bool := negb (is_empty s).

Definition validateConnection (c : Config) (client : pointer) : Prog error_value :=
  r ← call (BigIP_SelfIPs client);
  let '(t, err) := r in
  match err with
  | Some e =>
      _ ← call (log_Printf
                  "[ERROR] Connection to BigIP device could not have been validated: %v "
                  [e]);
      mret (Some e)
  | None =>
      match t with
      | None =>
          _ ← call (log_Printf "[WARN] Could not validate connection to BigIP" []);
          mret None
      | Some _ => mret None
      end
  end.

(** [Client] returns from inside its first branch when token login fails;
    [inl] carries that early result, [inr] the client to go on with. *)
Definition Client (c : Config) : Prog (pointer * error_value) :=
  if nonempty (Address c) && nonempty (Username c) && nonempty (Password c) then
    _ ← call (log_Println "[INFO] Initializing BigIP connection");
    session ←
      (if nonempty (LoginReference c) then
         r ← call (bigip_NewTokenSession (Address c) (Port c) (Username c)
                     (Password c) (LoginReference c) (ConfigOptions c));
         let '(client, err) := r in
         match err with
         | Some e =>
             _ ← call (log_Printf "[ERROR] Error creating New Token Session %s " [e]);
             mret (inl (None, Some e))
         | None => mret (inr client)
         end
       else
         client ← call (bigip_NewSession (Address c) (Port c) (Username c)
                          (Password c) (ConfigOptions c));
         mret (inr client));
    match session with
    | inl early => mret early
    | inr client =>
        err ← validateConnection c client;
        match err with
        | None => mret (client, None)
        | Some e => mret (None, Some e)
        end
    end
  else
    mret (None, Some (Errorf "BigIP provider requires address, username and password" [])).

(** Log lines at warning level. *)
Definition is_warning (o : Obs) : bool :=
  match o with
  | ObsPrintln line => String.prefix "[WARN]" line
  | ObsPrintf format _ => String.prefix "[WARN]" format
  | _ => false
  end.

(** The convention of package bigip's constructors: a session reported
    without error is a session. *)
Definition constructor_ok (o : Obs) : Prop :=
  match o with
  | ObsNewTokenSession _ _ _ _ _ _ b err => err = None -> b <> None
  | ObsNewSession _ _ _ _ _ b => b <> None
  | _ => True
  end.

(** ** Calls in sequence

    The validators once more, this time with the memory they run in: a
    caller hands over pointers, and two calls on the same arguments meet
    whatever the first call left behind them. *)

Module Sequential.

(** What the pointers a validator gets can address. *)
Inductive object : Type :=
  | ObjSet (s : gset GoString)        (* a schema.Set *)
  | ObjStrings (l : list GoString).   (* a []string *)

(** The memory that outlives a call: the objects behind the pointers the
    caller holds, by address. *)
Definition memory : Type := gmap N object.

(** A [value interface{}] as it is passed: its dynamic type, with the
    address where that type is a pointer.  The pointer may be nil. *)
Inductive interface : Type :=
  | ISet (p : pointer)              (* *schema.Set *)
  | IStrings (l : list GoString)    (* []string *)
  | IStringsPtr (p : pointer)       (* *[]string *)
  | IString (s : GoString)          (* string *)
  | IOther (t : string).            (* anything else, with its type *)

(** Go code: from the memory it starts in, the value it returns, or
    [None] when it panics, and the memory it leaves. *)
Definition Go (A : Type) : Type := memory -> option A * memory.

Definition ret {A : Type} (a : A) : Go A := fun m => (Some a, m).

Definition panic {A : Type} : Go A := fun m => (None, m).

Definition bind {A B : Type} (x : Go A) (f : A -> Go B) : Go B :=
  fun m =>
    match x m with
    | (Some a, m') => f a m'
    | (None, m') => (None, m')
    end.

(** Reading the set behind a [*schema.Set], as [Len], [List] and
    [Intersection] do.  Through a nil pointer this panics; an address
    without a set behind it does not occur in Go, and panics here. *)
Definition read_set (p : pointer) : Go (gset GoString) :=
  fun m =>
    match p with
    | None => (None, m)
    | Some a =>
        match m !! a with
        | Some (ObjSet s) => (Some s, m)
        | _ => (None, m)
        end
    end.

(** [*p] for a [*[]string]. *)
Definition read_strings (p : pointer) : Go (list GoString) :=
  fun m =>
    match p with
    | None => (None, m)
    | Some a =>
        match m !! a with
        | Some (ObjStrings l) => (Some l, m)
        | _ => (None, m)
        end
    end.

(** The type assertion to a pointer to [schema.Set]. *)
Definition assert_set (value : interface) : Go pointer :=
  match value with
  | ISet p => ret p
  | _ => panic
  end.

(** The type assertion to [string]. *)
Definition assert_string (value : interface) : Go GoString :=
  match value with
  | IString s => ret s
  | _ => panic
  end.

(** [valid] is the pointer the closure captured.  The condition reads
    the allowed set and the input set for the intersection and the input
    set again for its length; the error reads it once more for the
    list. *)
Definition validateSetValues (valid : pointer) (value : interface) (field : GoString)
    : Go diagnostics :=
  bind (assert_set value) (fun p =>
  bind (read_set valid) (fun allowed =>
  bind (read_set p) (fun other =>
  bind (assert_set value) (fun p' =>
  bind (read_set p') (fun s =>
  if negb (Nat.eqb (Set_Len (Set_Intersection allowed other)) (Set_Len s))
  then
    bind (assert_set value) (fun p'' =>
    bind (read_set p'') (fun s' =>
    ret ([], [Errorf "%q can only contain %v" [AString field; AStrings (Set_List s')]])))
  else ret ([], [])))))).

(** The loop of [validateStringValue]: [true] when it returns from inside
    the loop, [false] when it runs to the end. *)
Fixpoint validateStringValue_loop (values : list GoString) (value : interface) : Go bool :=
  match values with
  | [] => ret false
  | v :: values' =>
      bind (assert_string value) (fun s =>
      if GoString_eqb v s then ret true else validateStringValue_loop values' value)
  end.

Definition validateStringValue (values : list GoString) (value : interface)
    (field : GoString) : Go diagnostics :=
  bind (validateStringValue_loop values value) (fun found =>
  if found then ret ([], [])
  else ret ([], [Errorf "%q must be one of %v" [AString field; AStrings values]])).

(** The type switch the other validators open with: the set and the
    slice behind a pointer are read from memory. *)
Definition type_switch (fn : string) (value : interface)
    : Go (list GoString * list error) :=
  match value with
  | ISet p => bind (read_set p) (fun s => ret (setToStringSlice s, []))
  | IStrings l => ret (l, [])
  | IStringsPtr p => bind (read_strings p) (fun l => ret (l, []))
  | IString s => ret ([s], [])
  | IOther t => ret ([], [Errorf ("Unknown type %v in " ++ fn) [AType t]])
  end.

(** The loop over [values], which works on the function's own variables
    only. *)
Definition range_values (body : GoString -> list error)
    (switched : list GoString * list error) : Go diagnostics :=
  ret ([], range_append body (fst switched) (snd switched)).

Definition validateF5Name (value : interface) (field : GoString) : Go diagnostics :=
  bind (type_switch "validateF5Name" value)
    (range_values (fun v =>
       if negb (MatchString re_F5Name v)
       then [Errorf "%q must match /Partition/Name and contain letters, numbers or [._-:]. e.g. /Common/my-pool"
               [AString field]]
       else [])).

Definition validateF5NameWithDirectory (value : interface) (field : GoString)
    : Go diagnostics :=
  bind (type_switch "validateF5Name" value)
    (range_values (fun v =>
       if negb (MatchString re_F5NameWithDirectory v)
       then [Errorf "%q must match /Partition/Name or /Partition/Directory/Name  e.g. /Common/my-node or /Common/test/my-node"
               [AString field]]
       else [])).

Definition validatePartitionName (value : interface) (field : GoString) : Go diagnostics :=
  bind (type_switch "validatePartitionName" value)
    (range_values (fun v =>
       if negb (MatchString re_PartitionName v)
       then [Errorf "%q name should not start with `/`, e.g Common [or] test-partition are valid "
               [AString field]]
       else [])).

Definition validatePoolMemberName (value : interface) (field : GoString) : Go diagnostics :=
  bind (type_switch "validatePoolMemberName" value)
    (range_values (fun v =>
       if Nat.leb 2 (strings_Count v 58)
       then if negb (MatchString re_PoolMember_path v)
            then [err_PoolMember_path field] else []
       else if negb (MatchString re_PoolMember_host v)
            then [err_PoolMember_host field] else [])).

Definition validateEnabledDisabled (value : interface) (field : GoString) : Go diagnostics :=
  bind (type_switch "validateEnabledDisabled" value)
    (range_values (fun v =>
       if negb (MatchString re_EnabledDisabled v)
       then [Errorf "%q must match as enabled or disabled" [AString field]]
       else [])).

Definition validateReqPrefDisabled (value : interface) (field : GoString) : Go diagnostics :=
  bind (type_switch "validateReqPrefDisabled" value)
    (range_values (fun v =>
       if negb (MatchString re_ReqPrefDisabled v)
       then [Errorf "%q must match as required, preferred, or disabled" [AString field]]
       else [])).

Definition validateDataGroupType (value : interface) (field : GoString) : Go diagnostics :=
  bind (type_switch "validateDataGroupType" value)
    (range_values (fun v =>
       if negb (MatchString re_DataGroupType v)
       then [Errorf "%q must match as string, ip, or integer" [AString field]]
       else [])).

Definition validatePoolLicenseType (value : interface) (field : GoString) : Go diagnostics :=
  bind (type_switch "validatePoolLicenseType" value)
    (range_values (fun v =>
       if negb (MatchString re_PoolLicenseType v)
       then [Errorf "%q must match as Utility (or) Regkey" [AString field]]
       else [])).

Definition validateAssignmentType (value : interface) (field : GoString) : Go diagnostics :=
  bind (type_switch "validatePoolLicenseType" value)
    (range_values (fun v =>
       if negb (MatchString re_AssignmentType v)
       then [Errorf "%q must match as MANAGED/UNMANAGED/UNREACHABLE" [AString field]]
       else [])).

(** The validators that open with the type switch. *)
Definition string_validators : list (interface -> GoString -> Go diagnostics) :=
  [ validateF5Name; validateF5NameWithDirectory; validatePartitionName;
    validatePoolMemberName; validateEnabledDisabled; validateReqPrefDisabled;
    validateDataGroupType; validatePoolLicenseType; validateAssignmentType ].

(** Every field validator of the file; the two closures are taken at
    arbitrary captured arguments. *)
Definition validators (valid : pointer) (values : list GoString)
    : list (interface -> GoString -> Go diagnostics) :=
  validateSetValues valid :: validateStringValue values :: string_validators.

(** Two calls in sequence on the same arguments: the second starts in the
    memory the first has left.  The two outcomes and the memory after
    both. *)
Definition twice {A : Type} (f : interface -> GoString -> Go A) (value : interface)
    (field : GoString) (m : memory) : option A * option A * memory :=
  let '(first, m1) := f value field m in
  let '(second, m2) := f value field m1 in
  (first, second, m2).

(** Code that leaves memory as it found it. *)
Definition reads_only {A : Type} (x : Go A) : Prop := forall m, snd (x m) = m.

(** The contents behind an interface value: what the type switch and the
    assertions of a validator get to see of it in memory [m]. *)
Definition resolve (m : memory) (i : interface) : option value :=
  match i with
  | ISet p => option_map VSet (fst (read_set p m))
  | IStrings l => Some (VStrings l)
  | IStringsPtr p => option_map VStringsPtr (fst (read_strings p m))
  | IString s => Some (VString s)
  | IOther t => Some (VOther t)
  end.

End Sequential.

(** ** Vocabulary of the specification *)

Definition is_letter (c : rune) : bool := is_upper c || is_lower c.

(** Letters, digits and [. _ -]. *)
Definition partition_char (c : rune) : bool :=
  is_letter c || is_digit c || rune_eqb c 46 || rune_eqb c 95 || rune_eqb c 45.

(** Letters, digits and [. _ - :]. *)
Definition name_char (c : rune) : bool := partition_char c || rune_eqb c 58.

Definition all_of (p : rune -> bool) (s : GoString) : Prop :=
  Forall (fun c => p c = true) s.

(** [/Partition/Name], the two segments non-empty and drawn from the
    given characters. *)
Definition F5Name_shape (partition_ok name_ok : rune -> bool) (s : GoString) : Prop :=
  exists P N,
    s = runes "/" ++ P ++ runes "/" ++ N /\
    P <> [] /\ all_of partition_ok P /\ N <> [] /\ all_of name_ok N.

(** The object path as the specification words it: one alphabet,
    [. _ - :] included, for both segments. *)
Definition F5Name_claimed (s : GoString) : Prop := F5Name_shape name_char name_char s.

(** [host:port]. *)
Definition HostPort_shape (s : GoString) : Prop :=
  exists h p,
    s = h ++ runes ":" ++ p /\
    h <> [] /\ all_of partition_char h /\ p <> [] /\ all_of is_digit p.

(** [/Partition/Node], one more rune other than a newline, and a port. *)
Definition PathPort_shape (s : GoString) : Prop :=
  exists P N c D,
    s = runes "/" ++ P ++ runes "/" ++ N ++ [c] ++ D /\
    P <> [] /\ all_of partition_char P /\ N <> [] /\ all_of name_char N /\
    c <> 10 /\ D <> [] /\ all_of is_digit D.

(** The partition name as the specification words it. *)
Definition PartitionName_claimed (s : GoString) : Prop :=
  (forall c s', s = c :: s' -> c <> 47) /\ all_of (fun c => negb (is_space c)) s.

(** [strings.EqualFold]: equality under Unicode simple case folding. *)
Definition EqualFold (a b : GoString) : Prop :=
  Forall2 (fun x y => fold_eqb x y = true) a b.

(** [l] is a line of [s]: a newline-free stretch of [s] that begins at the
    start of [s] or after a newline and ends at the end of [s] or before a
    newline; that is, an element of [strings.Split(s, "\n")]. *)
Definition line_of (l s : GoString) : Prop :=
  exists a v,
    s = a ++ l ++ v /\
    (a = [] \/ exists a', a = a' ++ [10]) /\
    (v = [] \/ exists v', v = 10 :: v') /\
    ~ In 10 l.

(** The license type as the specification words it. *)
Definition PoolLicenseType_claimed (s : GoString) : Prop :=
  EqualFold s (runes "Utility") \/ EqualFold s (runes "regkey").

Definition accepted (d : diagnostics) : Prop := snd d = [].

(** ** Sample configurations *)

Definition config_without_password : Config :=
  {| Address := runes "192.0.2.10"; Port := runes "443"; Username := runes "admin";
     Password := []; LoginReference := runes "tmos"; ConfigOptions := None |}.

Definition config_basic : Config :=
  {| Address := runes "192.0.2.10"; Port := runes "443"; Username := runes "admin";
     Password := runes "secret"; LoginReference := []; ConfigOptions := None |}.

(** A run of [Client config_basic]: the session is the object at address
    1, and the device answers the liveness check with a nil result and no
    error. *)
Definition trace_nil_result : list Obs :=
  [ ObsPrintln "[INFO] Initializing BigIP connection";
    ObsNewSession (runes "192.0.2.10") (runes "443") (runes "admin") (runes "secret")
      None (Some 1);
    ObsSelfIPs (Some 1) None None;
    ObsPrintf "[WARN] Could not validate connection to BigIP" [] ].

(** ** Further vocabulary: the validators on every input shape *)

(** [/Partition/Directory/Name]. *)
Definition F5Directory_shape (s : GoString) : Prop :=
  exists P D N,
    s = runes "/" ++ P ++ runes "/" ++ D ++ runes "/" ++ N /\
    P <> [] /\ all_of partition_char P /\
    D <> [] /\ all_of name_char D /\
    N <> [] /\ all_of name_char N.

(** The validators that open with the type switch. *)
Definition string_validators : list (value -> GoString -> diagnostics) :=
  [ validateF5Name; validateF5NameWithDirectory; validatePartitionName;
    validatePoolMemberName; validateEnabledDisabled; validateReqPrefDisabled;
    validateDataGroupType; validatePoolLicenseType; validateAssignmentType ].

(** Whether validating the single string [v] gives an error. *)
Definition offends (V : value -> GoString -> diagnostics) (field v : GoString) : bool :=
  match snd (V (VString v) field) with [] => false | _ :: _ => true end.

Definition AssignmentType_word (s : GoString) : Prop :=
  EqualFold s (runes "MANAGED") \/ EqualFold s (runes "UNMANAGED") \/
  EqualFold s (runes "UNREACHABLE").

(** The error [validateStringValue] reports. *)
Definition err_StringValue (values : list GoString) (field : GoString) : error :=
  Errorf "%q must be one of %v" [AString field; AStrings values].

Definition is_string (value : value) : bool :=
  match value with VString _ => true | _ => false end.

(** ** Vocabulary of the session factory's runs *)

Definition obs_info : Obs := ObsPrintln "[INFO] Initializing BigIP connection".

(** What [validateConnection] logs after the answer [(t, err)] of the
    liveness check, and what [Client] then returns for the handle [b]. *)
Definition liveness_log (t : SelfIPs) (err : error_value) : list Obs :=
  match err with
  | Some e =>
      [ObsPrintf "[ERROR] Connection to BigIP device could not have been validated: %v " [e]]
  | None =>
      match t with
      | None => [ObsPrintf "[WARN] Could not validate connection to BigIP" []]
      | Some _ => []
      end
  end.

Definition liveness_result (b : pointer) (err : error_value) : pointer * error_value :=
  match err with
  | Some e => (None, Some e)
  | None => (b, None)
  end.

Definition obs_token (c : Config) (b : pointer) (err : error_value) : Obs :=
  ObsNewTokenSession (Address c) (Port c) (Username c) (Password c)
    (LoginReference c) (ConfigOptions c) b err.

Definition obs_session (c : Config) (b : pointer) : Obs :=
  ObsNewSession (Address c) (Port c) (Username c) (Password c) (ConfigOptions c) b.

Definition err_missing_fields : error :=
  Errorf "BigIP provider requires address, username and password" [].

Definition config_token : Config :=
  {| Address := runes "192.0.2.10"; Port := runes "443"; Username := runes "admin";
     Password := runes "secret"; LoginReference := runes "tmos"; ConfigOptions := None |}.

Definition err_login : error := Errorf "unable to acquire authentication token" [].

(** A run of [Client config_token] in which token login fails. *)
Definition trace_login_failure : list Obs :=
  [ obs_info; obs_token config_token None (Some err_login);
    ObsPrintf "[ERROR] Error creating New Token Session %s " [err_login] ].

(** ** Vocabulary of the claims on the session factory *)

(** What [Client] sees of authentication when it succeeds: token login
    without error, or the basic session. *)
Definition obs_login (c : Config) (b : pointer) : Obs :=
  if nonempty (LoginReference c) then obs_token c b None else obs_session c b.

(** An empty result as the specification words it: the request lists no
    self-IP, whether it returned no pointer or a pointer to an empty
    list. *)
Definition empty_result (t : SelfIPs) : bool :=
  match t with
  | None => true
  | Some l => Nat.eqb (length l) 0
  end.

(** The trichotomy of the specification for a liveness request on handle
    [b] that returned [(t, err)], in a run with calls [tr] and result
    [r]. *)
Definition liveness_claimed (tr : list Obs) (r : pointer * error_value)
    (b : pointer) (t : SelfIPs) (err : error_value) : Prop :=
  match err with
  | Some e => r = (None, Some e)
  | None => r = (b, None) /\ existsb is_warning tr = empty_result t
  end.

(** A run of [Client config_basic] in which the device answers the
    liveness check with a list that has no entry, and no error. *)
Definition trace_empty_list : list Obs :=
  [ obs_info; obs_session config_basic (Some 1); ObsSelfIPs (Some 1) (Some []) None ].

(** A run of [Client config_basic] in which [NewSession] returns nil and
    the liveness request on it returns nil and no error. *)
Definition trace_nil_session : list Obs :=
  [ obs_info; obs_session config_basic None; ObsSelfIPs None None None;
    ObsPrintf "[WARN] Could not validate connection to BigIP" [] ].

(** ** getDeviceUri: package regexp with submatches *)

Module Submatch.

(** The operators of the pattern of [getDeviceUri]; a non-capturing group
    leaves no node.  Groups are numbered from 1 in the pattern and stored
    from index 0. *)
Inductive regex : Type :=
  | Literal (l : list rune)
  | Plus (c : Regexp.class)
  | Star (c : Regexp.class)
  | Quest (r : regex)
  | BeginText
  | Capture (i : nat) (r : regex)
  | Concat (r1 r2 : regex)
  | Alternate (r1 r2 : regex).

(** The text of each group, if the group took part in the match. *)
Definition captures : Type := list (option GoString).

(** The match found, if any: its text and its groups. *)
Definition result : Type := option (GoString * captures).

Definition cont : Type := list rune -> list rune -> captures -> result.

(** The text consumed between two positions, each given by the text
    before it, most recent rune first. *)
Definition between (pre pre' : list rune) : GoString :=
  rev (firstn (length pre' - length pre) pre').

Definition or_else (a : result) (b : result) : result :=
  match a with Some x => Some x | None => b end.

Fixpoint run_literal (l : list rune) (k : cont) (pre s : list rune) (caps : captures)
    : result :=
  match l with
  | [] => k pre s caps
  | x :: l' =>
      match s with
      | [] => None
      | c :: s' => if rune_eqb c x then run_literal l' k (c :: pre) s' caps else None
      end
  end.

(** Greedy repetition: one more rune is tried before going on. *)
Fixpoint run_star (p : rune -> bool) (k : cont) (pre s : list rune) (caps : captures)
    : result :=
  match s with
  | [] => k pre s caps
  | c :: s' =>
      if p c then or_else (run_star p k (c :: pre) s' caps) (k pre s caps)
      else k pre s caps
  end.

Definition run_plus (p : rune -> bool) (k : cont) (pre s : list rune) (caps : captures)
    : result :=
  match s with
  | [] => None
  | c :: s' => if p c then run_star p k (c :: pre) s' caps else None
  end.

(** The backtracking search whose first success is the leftmost-first
    match package regexp reports: the left alternative before the right
    one, a repetition or an option taken before it is skipped. *)
Fixpoint run (r : regex) (pre s : list rune) (caps : captures) (k : cont) : result :=
  match r with
  | Literal l => run_literal l k pre s caps
  | Plus cl => run_plus (Regexp.class_matches cl) k pre s caps
  | Star cl => run_star (Regexp.class_matches cl) k pre s caps
  | Quest r1 => or_else (run r1 pre s caps k) (k pre s caps)
  | BeginText => if is_empty pre then k pre s caps else None
  | Capture i r1 =>
      run r1 pre s caps
        (fun pre' s' caps' => k pre' s' (<[i := Some (between pre pre')]> caps'))
  | Concat r1 r2 => run r1 pre s caps (fun pre' s' caps' => run r2 pre' s' caps' k)
  | Alternate r1 r2 => or_else (run r1 pre s caps k) (run r2 pre s caps k)
  end.

(** The leftmost start position that gives a match. *)
Fixpoint find (r : regex) (groups : nat) (pre s : list rune) : result :=
  or_else
    (run r pre s (replicate groups None)
       (fun pre' _ caps => Some (between pre pre', caps)))
    (match s with
     | [] => None
     | c :: s' => find r groups (c :: pre) s'
     end).

(** [re.FindStringSubmatch(s)]: nil without a match; otherwise the text of
    the match followed by the text of each group, empty for a group that
    took no part. *)
Definition FindStringSubmatch (r : regex) (groups : nat) (s : GoString) : list GoString :=
  match find r groups [] s with
  | None => []
  | Some (text, caps) => text :: map (fun c => match c with Some t => t | None => [] end) caps
  end.

End Submatch.

(** [[^:\/\s]] *)
Definition host_class : class := Class true [IRune 58; IRune 47; ISpace].

(** The pattern of [getDeviceUri], as written in the source. *)
Definition pattern_DeviceUri : string :=
  "^(?:(?:(https?|s?ftp):)\/\/)([^:\/\s]+)(?::(\d*))?".

(** [regexp.MustCompile(pattern_DeviceUri)], in three parts: the scheme
    (group 1), the separator, and host (group 2) with the optional port
    (group 3). *)
Definition re_uri_scheme : Submatch.regex :=
  Submatch.Capture 0
    (Submatch.Alternate
       (Submatch.Concat (Submatch.Literal (runes "http"))
                        (Submatch.Quest (Submatch.Literal (runes "s"))))
       (Submatch.Concat (Submatch.Quest (Submatch.Literal (runes "s")))
                        (Submatch.Literal (runes "ftp")))).

Definition re_uri_authority : Submatch.regex :=
  Submatch.Concat
    (Submatch.Capture 1 (Submatch.Plus host_class))
    (Submatch.Quest
       (Submatch.Concat (Submatch.Literal (runes ":"))
                        (Submatch.Capture 2 (Submatch.Star digit)))).

Definition re_uri_rest : Submatch.regex :=
  Submatch.Concat (Submatch.Literal (runes ":"))
    (Submatch.Concat (Submatch.Literal (runes "//")) re_uri_authority).

Definition re_DeviceUri : Submatch.regex :=
  Submatch.Concat Submatch.BeginText (Submatch.Concat re_uri_scheme re_uri_rest).

Definition getDeviceUri (str : GoString) : list GoString * error_value :=
  if Nat.ltb 0 (length (Submatch.FindStringSubmatch re_DeviceUri 3 str))
  then (Submatch.FindStringSubmatch re_DeviceUri 3 str, None)
  else ([], None).

(** *** Vocabulary for the parts of a device URI *)

Definition host_char (c : rune) : bool :=
  negb (rune_eqb c 58 || rune_eqb c 47 || is_space c).

Definition schemes : list GoString :=
  [runes "https"; runes "http"; runes "sftp"; runes "ftp"].

(** [s] does not begin with a rune satisfying [p]. *)
Definition stops (p : rune -> bool) (s : GoString) : Prop :=
  match s with
  | [] => True
  | c :: _ => p c = false
  end.

(** [s] without the prefix [l], if it has that prefix. *)
Fixpoint strip (l s : list rune) : option (list rune) :=
  match l with
  | [] => Some s
  | x :: l' =>
      match s with
      | [] => None
      | c :: s' => if rune_eqb c x then strip l' s' else None
      end
  end.

(** The longest prefix of [s] whose runes satisfy [p], and what follows
    it. *)
Fixpoint run_of (p : rune -> bool) (s : list rune) : list rune :=
  match s with
  | [] => []
  | c :: s' => if p c then c :: run_of p s' else []
  end.

Fixpoint after_run (p : rune -> bool) (s : list rune) : list rune :=
  match s with
  | [] => []
  | c :: s' => if p c then after_run p s' else s
  end.

(** The pattern of [getDeviceUri] read from left to right, once the
    scheme is known: [rest] is the text after the scheme. *)
Definition uri_after_scheme (scheme rest : GoString) : option (list GoString) :=
  match strip (runes "://") rest with
  | None => None
  | Some r =>
      match run_of host_char r with
      | [] => None
      | host =>
          match strip (runes ":") (after_run host_char r) with
          | Some r' =>
              Some [scheme ++ runes "://" ++ host ++ runes ":" ++ run_of is_digit r';
                    scheme; host; run_of is_digit r']
          | None => Some [scheme ++ runes "://" ++ host; scheme; host; []]
          end
      end
  end.

Definition try_scheme (scheme str : GoString) : option (list GoString) :=
  match strip scheme str with
  | None => None
  | Some rest => uri_after_scheme scheme rest
  end.

Definition first_of {A : Type} (a b : option A) : option A :=
  match a with Some x => Some x | None => b end.

Definition uri_reading (str : GoString) : option (list GoString) :=
  first_of (try_scheme (runes "https") str)
    (first_of (try_scheme (runes "http") str)
       (first_of (try_scheme (runes "sftp") str) (try_scheme (runes "ftp") str))).

(** * Properties *)

(** ** The matcher against the declarative reading *)

Module RegexpFacts.

Lemma rune_eqb_eq a b : rune_eqb a b = true <-> a = b.
Proof. unfold rune_eqb. apply N.eqb_eq. Qed.

Lemma run_literal_spec fold l k pre s :
  run_literal fold l k pre s = true <->
  exists u v, s = u ++ v /\
    Forall2 (fun x c => literal_matches fold x c = true) l u /\
    k (rev u ++ pre) v = true.
Proof.
  revert pre s. induction l as [|x l IH]; intros pre s; simpl.
  - split.
    + intros H. exists [], s. repeat split; [constructor | exact H].
    + intros (u & v & -> & Hu & Hk). inversion Hu; subst. exact Hk.
  - destruct s as [|c s].
    + split; [discriminate|].
      intros (u & v & Hs & Hu & _). inversion Hu; subst. discriminate.
    + rewrite andb_true_iff, IH. split.
      * intros (Hc & u & v & -> & Hu & Hk).
        exists (c :: u), v. simpl. rewrite <- app_assoc. simpl.
        repeat split; [constructor; assumption | exact Hk].
      * intros (u & v & Hs & Hu & Hk). inversion Hu as [|? c' ? u' Hc Hu']; subst.
        simpl in Hs. injection Hs as -> ->. split; [exact Hc|].
        exists u', v. simpl in Hk. rewrite <- app_assoc in Hk. simpl in Hk.
        repeat split; assumption.
Qed.

Lemma run_plus_spec p k pre s :
  run_plus p k pre s = true <->
  exists u v, s = u ++ v /\ u <> [] /\
    Forall (fun c => p c = true) u /\ k (rev u ++ pre) v = true.
Proof.
  revert pre. induction s as [|c s IH]; intros pre; simpl.
  - split; [discriminate|].
    intros (u & v & Hs & Hne & _). destruct u; [congruence | discriminate].
  - rewrite andb_true_iff, orb_true_iff, IH. split.
    + intros (Hc & [Hk | (u & v & -> & Hne & Hu & Hk)]).
      * exists [c], s. repeat split; [discriminate | repeat constructor; exact Hc | exact Hk].
      * exists (c :: u), v. simpl. rewrite <- app_assoc. simpl.
        repeat split; [discriminate | constructor; assumption | exact Hk].
    + intros (u & v & Hs & Hne & Hu & Hk).
      destruct u as [|c' u]; [congruence|].
      simpl in Hs. injection Hs as -> ->.
      inversion Hu as [|? ? Hc Hu']; subst. split; [exact Hc|].
      simpl in Hk. rewrite <- app_assoc in Hk. simpl in Hk.
      destruct u as [|c2 u].
      * left. exact Hk.
      * right. exists (c2 :: u), v. repeat split; [discriminate | assumption | exact Hk].
Qed.

(** The matcher succeeds exactly when the text splits into a part the
    expression matches and a rest the continuation accepts. *)
Theorem run_spec r :
  forall pre s k,
    run r pre s k = true <->
    exists u v, s = u ++ v /\ matches r pre u v /\ k (rev u ++ pre) v = true.
Proof.
  induction r as [fold l | cl | | cl | | | | | r IH | r1 IH1 r2 IH2 | r1 IH1 r2 IH2];
    intros pre s k; simpl.
  - apply run_literal_spec.
  - destruct s as [|c s].
    + split; [discriminate|]. intros (u & v & Hs & (c & -> & _) & _). discriminate.
    + rewrite andb_true_iff. split.
      * intros [Hc Hk]. exists [c], s. repeat split; [exists c; auto | exact Hk].
      * intros (u & v & Hs & (c' & -> & Hc) & Hk). simpl in Hs.
        injection Hs as -> ->. auto.
  - destruct s as [|c s].
    + split; [discriminate|]. intros (u & v & Hs & (c & -> & _) & _). discriminate.
    + rewrite andb_true_iff, negb_true_iff. split.
      * intros [Hc Hk]. exists [c], s. repeat split; [|exact Hk].
        exists c. split; [reflexivity|]. intros ->. discriminate.
      * intros (u & v & Hs & (c' & -> & Hc) & Hk). simpl in Hs.
        injection Hs as -> ->. split; [|exact Hk].
        destruct (rune_eqb c' 10) eqn:E; [|reflexivity].
        apply rune_eqb_eq in E. contradiction.
  - rewrite run_plus_spec. split.
    + intros (u & v & -> & Hne & Hu & Hk). exists u, v. auto.
    + intros (u & v & -> & [Hne Hu] & Hk). exists u, v. auto.
  - rewrite andb_true_iff. unfold at_begin_text. split.
    + intros [Hp Hk]. exists [], s. destruct pre; [auto | discriminate].
    + intros (u & v & -> & [-> ->] & Hk). auto.
  - rewrite andb_true_iff. unfold at_end_text. split.
    + intros [Hp Hk]. exists [], s. destruct s; [auto | discriminate].
    + intros (u & v & -> & [-> ->] & Hk). auto.
  - rewrite andb_true_iff. split.
    + intros [Hp Hk]. exists [], s. auto.
    + intros (u & v & -> & [-> Hp] & Hk). auto.
  - rewrite andb_true_iff. split.
    + intros [Hp Hk]. exists [], s. auto.
    + intros (u & v & -> & [-> Hp] & Hk). auto.
  - apply IH.
  - rewrite IH1. split.
    + intros (u1 & v1 & -> & H1 & Hk). apply IH2 in Hk.
      destruct Hk as (u2 & v & -> & H2 & Hk).
      exists (u1 ++ u2), v. rewrite rev_app_distr, <- !app_assoc.
      repeat split; [|exact Hk]. exists u1, u2. auto.
    + intros (u & v & -> & (u1 & u2 & -> & H1 & H2) & Hk).
      exists u1, (u2 ++ v). rewrite <- app_assoc. repeat split; [exact H1|].
      apply IH2. exists u2, v. rewrite rev_app_distr, <- app_assoc in Hk. auto.
  - rewrite orb_true_iff, IH1, IH2. split.
    + intros [(u & v & -> & H & Hk) | (u & v & -> & H & Hk)]; exists u, v; auto.
    + intros (u & v & -> & [H | H] & Hk); [left | right]; exists u, v; auto.
Qed.

(** [MatchString] reports whether some stretch of the text matches. *)
Lemma search_spec r pre s :
  search r pre s = true <->
  exists a u v, s = a ++ u ++ v /\ matches r (rev a ++ pre) u v.
Proof.
  revert pre. induction s as [|c s IH]; intros pre; simpl.
  - rewrite orb_false_r, run_spec. split.
    + intros (u & v & Hs & H & _). exists [], u, v. auto.
    + intros (a & u & v & Hs & H). symmetry in Hs.
      apply app_eq_nil in Hs as [-> Hs]. apply app_eq_nil in Hs as [-> ->].
      exists [], []. auto.
  - rewrite orb_true_iff, run_spec, IH. split.
    + intros [(u & v & Hs & H & _) | (a & u & v & -> & H)].
      * exists [], u, v. auto.
      * exists (c :: a), u, v. simpl. rewrite <- app_assoc. auto.
    + intros (a & u & v & Hs & H). destruct a as [|c' a].
      * left. exists u, v. auto.
      * right. simpl in Hs. injection Hs as -> ->. exists a, u, v.
        simpl in H. rewrite <- app_assoc in H. auto.
Qed.

Theorem MatchString_spec r s :
  MatchString r s = true <->
  exists a u v, s = a ++ u ++ v /\ matches r (rev a) u v.
Proof.
  unfold MatchString. rewrite search_spec.
  split; intros (a & u & v & Hs & H); exists a, u, v.
  - rewrite app_nil_r in H. auto.
  - rewrite app_nil_r. auto.
Qed.

End RegexpFacts.

(** ** Shapes of the strings the patterns match *)

Module Shapes.
Import RegexpFacts.

Lemma literal_exact l u :
  Forall2 (fun x c => literal_matches false x c = true) l u <-> u = l.
Proof.
  split.
  - induction 1 as [|x c l u Hc _ IH]; [reflexivity|].
    simpl in Hc. apply rune_eqb_eq in Hc. congruence.
  - intros ->. induction l; constructor; [|assumption].
    simpl. apply rune_eqb_eq. reflexivity.
Qed.

Lemma word_dash_dot_chars c : class_matches word_dash_dot c = partition_char c.
Proof.
  unfold word_dash_dot, partition_char, is_letter, class_matches. simpl.
  unfold is_word.
  destruct (is_digit c), (is_upper c), (is_lower c),
    (rune_eqb c 95), (rune_eqb c 45), (rune_eqb c 46); reflexivity.
Qed.

Lemma word_dash_dot_colon_chars c : class_matches word_dash_dot_colon c = name_char c.
Proof.
  unfold word_dash_dot_colon, name_char, partition_char, is_letter, class_matches.
  simpl. unfold is_word.
  destruct (is_digit c), (is_upper c), (is_lower c),
    (rune_eqb c 95), (rune_eqb c 45), (rune_eqb c 46), (rune_eqb c 58); reflexivity.
Qed.

Lemma digit_chars c : class_matches digit c = is_digit c.
Proof. unfold digit, class_matches. simpl. destruct (is_digit c); reflexivity. Qed.

Lemma all_of_ext p q s : (forall c, p c = q c) -> all_of p s <-> all_of q s.
Proof.
  intros E. unfold all_of. rewrite !Forall_forall.
  split; intros H c Hc; [rewrite <- E | rewrite E]; auto.
Qed.

Lemma rev_nil_inv (a : list rune) : rev a = [] -> a = [].
Proof.
  intros H. apply (f_equal (@rev rune)) in H. rewrite rev_involutive in H. exact H.
Qed.

(** Unfold a match of a concrete pattern into its pieces. *)
Ltac pieces :=
  repeat match goal with
    | H : exists _, _ |- _ => destruct H as [? H]
    | H : _ /\ _ |- _ => destruct H as [? ?]
    | H : Forall2 (fun x c => literal_matches false x c = true) _ _ |- _ =>
        apply literal_exact in H
    | H : rev _ = [] |- _ => apply rev_nil_inv in H
    end; subst.

Lemma re_F5Name_shape s :
  MatchString re_F5Name s = true <-> F5Name_shape partition_char name_char s.
Proof.
  rewrite MatchString_spec. unfold re_F5Name, F5Name_shape. cbn [cat matches].
  split.
  - intros H. pieces. rewrite !app_nil_r. simpl.
    match goal with
    | HP : Forall _ ?P, HN : Forall _ ?N |- exists _ _, _ :: ?P ++ _ :: ?N = _ /\ _ =>
        exists P, N
    end.
    repeat split; try assumption.
    + eapply all_of_ext; [|eassumption]. intros; symmetry; apply word_dash_dot_chars.
    + eapply all_of_ext; [|eassumption]. intros; symmetry; apply word_dash_dot_colon_chars.
  - intros (P & N & -> & HP & HPa & HN & HNa).
    exists [], (runes "/" ++ P ++ runes "/" ++ N), [].
    split; [rewrite app_nil_r; reflexivity|].
    exists [], (runes "/" ++ P ++ runes "/" ++ N). repeat split.
    exists (runes "/"), (P ++ runes "/" ++ N). repeat split.
    { apply literal_exact. reflexivity. }
    exists P, (runes "/" ++ N). repeat split; [assumption | |].
    { eapply all_of_ext; [|exact HPa]. apply word_dash_dot_chars. }
    exists (runes "/"), N. repeat split.
    { apply literal_exact. reflexivity. }
    exists N, []. rewrite app_nil_r. repeat split; [assumption|].
    eapply all_of_ext; [|exact HNa]. apply word_dash_dot_colon_chars.
Qed.

Lemma re_PoolMember_host_shape s :
  MatchString re_PoolMember_host s = true <-> HostPort_shape s.
Proof.
  rewrite MatchString_spec. unfold re_PoolMember_host, HostPort_shape. cbn [cat matches].
  split.
  - intros H. pieces. rewrite !app_nil_r. simpl.
    match goal with
    | Hh : Forall _ ?h, Hp : Forall _ ?p |- exists _ _, ?h ++ _ :: ?p = _ /\ _ =>
        exists h, p
    end.
    repeat split; try assumption.
    + eapply all_of_ext; [|eassumption]. intros; symmetry; apply word_dash_dot_chars.
    + eapply all_of_ext; [|eassumption]. intros; symmetry; apply digit_chars.
  - intros (h & p & -> & Hh & Hha & Hp & Hpa).
    exists [], (h ++ runes ":" ++ p), [].
    split; [rewrite app_nil_r; reflexivity|].
    exists [], (h ++ runes ":" ++ p). repeat split.
    exists h, (runes ":" ++ p). repeat split; [assumption | |].
    { eapply all_of_ext; [|exact Hha]. apply word_dash_dot_chars. }
    exists (runes ":"), p. repeat split.
    { apply literal_exact. reflexivity. }
    exists p, []. rewrite app_nil_r. repeat split; [assumption|].
    eapply all_of_ext; [|exact Hpa]. apply digit_chars.
Qed.

Lemma re_PoolMember_path_shape s :
  MatchString re_PoolMember_path s = true <-> PathPort_shape s.
Proof.
  rewrite MatchString_spec. unfold re_PoolMember_path, PathPort_shape. cbn [cat matches].
  split.
  - intros H. pieces. rewrite !app_nil_r. simpl.
    match goal with
    | HP : Forall _ ?P, HN : Forall _ ?N, HD : Forall _ ?D, Hc : ?c <> 10
      |- exists _ _ _ _, _ :: ?P ++ _ :: ?N ++ _ = _ /\ _ =>
        exists P, N, c, D
    end.
    repeat split; try assumption.
    + eapply all_of_ext; [|eassumption]. intros; symmetry; apply word_dash_dot_chars.
    + eapply all_of_ext; [|eassumption]. intros; symmetry; apply word_dash_dot_colon_chars.
    + eapply all_of_ext; [|eassumption]. intros; symmetry; apply digit_chars.
  - intros (P & N & c & D & -> & HP & HPa & HN & HNa & Hc & HD & HDa).
    exists [], (runes "/" ++ P ++ runes "/" ++ N ++ [c] ++ D), [].
    split; [rewrite app_nil_r; reflexivity|].
    exists [], (runes "/" ++ P ++ runes "/" ++ N ++ [c] ++ D). repeat split.
    exists (runes "/"), (P ++ runes "/" ++ N ++ [c] ++ D). repeat split.
    { apply literal_exact. reflexivity. }
    exists P, (runes "/" ++ N ++ [c] ++ D). repeat split; [assumption | |].
    { eapply all_of_ext; [|exact HPa]. apply word_dash_dot_chars. }
    exists (runes "/"), (N ++ [c] ++ D). repeat split.
    { apply literal_exact. reflexivity. }
    exists N, ([c] ++ D). repeat split; [assumption | |].
    { eapply all_of_ext; [|exact HNa]. apply word_dash_dot_colon_chars. }
    exists [c], D. repeat split; [exists c; auto|].
    exists D, []. rewrite app_nil_r. repeat split; [assumption|].
    eapply all_of_ext; [|exact HDa]. apply digit_chars.
Qed.

Lemma not_slash c : class_matches (Class true [IRune 47]) c = true <-> c <> 47.
Proof.
  simpl. rewrite orb_false_r. destruct (rune_eqb c 47) eqn:E; simpl.
  - apply rune_eqb_eq in E. split; [discriminate | contradiction].
  - split; [|reflexivity]. intros _ ->. unfold rune_eqb in E.
    rewrite N.eqb_refl in E. discriminate.
Qed.

Lemma not_space c : class_matches (Class true [ISpace]) c = negb (is_space c).
Proof. simpl. rewrite orb_false_r. reflexivity. Qed.

(** What [^[^/][^\s]+$] matches: a first rune other than [/], followed by
    at least one rune, none of them in [\s]. *)
Lemma re_PartitionName_shape s :
  MatchString re_PartitionName s = true <->
  exists c rest,
    s = c :: rest /\ c <> 47 /\ rest <> [] /\ all_of (fun c => negb (is_space c)) rest.
Proof.
  rewrite MatchString_spec. unfold re_PartitionName. cbn [cat matches].
  split.
  - intros H. pieces. rewrite !app_nil_r. simpl.
    match goal with
    | Hr : Forall _ ?r |- exists _ _, ?c :: ?r = _ /\ _ => exists c, r
    end.
    repeat split; try assumption.
    + apply not_slash. assumption.
    + eapply all_of_ext; [|eassumption]. intros; symmetry; apply not_space.
  - intros (c & rest & -> & Hc & Hr & Hra).
    exists [], (c :: rest), [].
    split; [rewrite app_nil_r; reflexivity|].
    exists [], (c :: rest). repeat split.
    exists [c], rest. repeat split.
    { exists c. split; [reflexivity|]. apply not_slash. assumption. }
    exists rest, []. rewrite app_nil_r. repeat split; [assumption|].
    eapply all_of_ext; [|exact Hra]. apply not_space.
Qed.

Lemma MatchString_Alternate r1 r2 s :
  MatchString (Alternate r1 r2) s = true <->
  MatchString r1 s = true \/ MatchString r2 s = true.
Proof.
  rewrite !MatchString_spec. simpl. split.
  - intros (a & u & v & Hs & [H | H]); [left | right]; exists a, u, v; auto.
  - intros [(a & u & v & Hs & H) | (a & u & v & Hs & H)]; exists a, u, v; auto.
Qed.

(** [^word$] without flags matches the word and nothing else. *)
Lemma MatchString_word w s :
  MatchString (cat [caret false; Literal false w; dollar false]) s = true <-> s = w.
Proof.
  rewrite MatchString_spec. cbn [cat caret dollar matches]. split.
  - intros H. pieces. rewrite !app_nil_r. reflexivity.
  - intros ->. exists [], w, []. split; [rewrite app_nil_r; reflexivity|].
    exists [], w. repeat split. exists w, []. rewrite app_nil_r. repeat split.
    apply literal_exact. reflexivity.
Qed.

Lemma at_begin_line_iff a :
  at_begin_line (rev a) = true <-> a = [] \/ exists a', a = a' ++ [10].
Proof.
  destruct (rev a) as [|c p] eqn:E; simpl.
  - apply rev_nil_inv in E. subst. split; auto.
  - assert (Ha : a = rev p ++ [c]).
    { rewrite <- (rev_involutive a), E. reflexivity. }
    rewrite rune_eqb_eq. split.
    + intros ->. right. exists (rev p). exact Ha.
    + intros [-> | [a' ->]]; [discriminate|].
      rewrite rev_unit in E. congruence.
Qed.

Lemma at_end_line_iff v :
  at_end_line v = true <-> v = [] \/ exists v', v = 10 :: v'.
Proof.
  destruct v as [|c v]; simpl.
  - split; auto.
  - rewrite rune_eqb_eq. split.
    + intros ->. right. exists v. reflexivity.
    + intros [H | [v' H]]; congruence.
Qed.

Lemma fold_key_newline c : fold_key c = 10 -> c = 10.
Proof.
  unfold fold_key, to_lower, is_upper, in_range, rune_eqb.
  destruct (c =? 8490)%N; [discriminate|].
  destruct (c =? 383)%N; [discriminate|].
  destruct ((65 <=? c) && (c <=? 90))%N eqn:E; [|auto].
  apply andb_true_iff in E as [E1 E2].
  apply N.leb_le in E1. lia.
Qed.

Lemma EqualFold_no_newline u w : EqualFold u w -> ~ In 10 w -> ~ In 10 u.
Proof.
  induction 1 as [|c x u w Hc _ IH]; [auto|].
  intros Hw [Hc10 | Hin].
  - apply Hw. left. unfold fold_eqb in Hc. apply rune_eqb_eq in Hc.
    apply fold_key_newline. rewrite <- Hc, Hc10. reflexivity.
  - apply IH; [|assumption]. intros H. apply Hw. right. exact H.
Qed.

Lemma literal_fold l u :
  Forall2 (fun x c => literal_matches true x c = true) l u <-> EqualFold u l.
Proof.
  unfold EqualFold. split; induction 1; constructor; auto.
Qed.

(** [^word$] under flags m and i matches when some line of the text is
    the word up to case folding. *)
Lemma MatchString_word_mi w s :
  ~ In 10 w ->
  MatchString (cat [caret true; Literal true w; dollar true]) s = true <->
  exists l, line_of l s /\ EqualFold l w.
Proof.
  intros Hw. rewrite MatchString_spec. cbn [cat caret dollar matches]. split.
  - intros (a & u & v & -> & u1 & u2 & -> & [-> Ha] & u3 & u4 & -> & Hu & -> & Hv).
    apply literal_fold in Hu. exists u3. split; [|exact Hu].
    exists a, v. rewrite app_nil_r. simpl. repeat split.
    + apply at_begin_line_iff. exact Ha.
    + apply at_end_line_iff. exact Hv.
    + eapply EqualFold_no_newline; eassumption.
  - intros (l & (a & v & -> & Ha & Hv & _) & Hl).
    exists a, l, v. split; [reflexivity|].
    exists [], l. repeat split; [apply at_begin_line_iff; exact Ha|].
    exists l, []. rewrite app_nil_r. repeat split.
    + apply literal_fold. exact Hl.
    + apply at_end_line_iff. exact Hv.
Qed.

(** A text without a newline has one line, itself. *)
Lemma line_of_single l s : ~ In 10 s -> line_of l s <-> l = s.
Proof.
  intros Hs. split.
  - intros (a & v & -> & Ha & Hv & _).
    destruct Ha as [-> | [a' ->]].
    + destruct Hv as [-> | [v' ->]]; [rewrite app_nil_r; reflexivity|].
      exfalso. apply Hs. simpl. apply in_or_app. right. left. reflexivity.
    + exfalso. apply Hs. apply in_or_app. left. apply in_or_app. right. left. reflexivity.
  - intros ->. exists [], []. rewrite app_nil_r. auto.
Qed.

End Shapes.

(** ** The field validators *)

Import RegexpFacts Shapes.

Lemma negb_if_nil (b : bool) (e : error) :
  (if negb b then [e] else []) = [] <-> b = true.
Proof. destruct b; simpl; split; congruence. Qed.

Lemma validateF5Name_accepts v field :
  accepted (validateF5Name (VString v) field) <-> F5Name_shape partition_char name_char v.
Proof.
  unfold accepted, validateF5Name. simpl. rewrite <- re_F5Name_shape.
  apply negb_if_nil.
Qed.

(** What the partition-name validator accepts, in full: at least two
    runes, the first not [/], none after the first in [\s]. *)
Lemma validatePartitionName_accepts v field :
  accepted (validatePartitionName (VString v) field) <->
  exists c rest,
    v = c :: rest /\ c <> 47 /\ rest <> [] /\ all_of (fun c => negb (is_space c)) rest.
Proof.
  unfold accepted, validatePartitionName. simpl. rewrite <- re_PartitionName_shape.
  apply negb_if_nil.
Qed.

Lemma validatePoolMemberName_accepts v field :
  accepted (validatePoolMemberName (VString v) field) <->
  if Nat.leb 2 (strings_Count v 58) then PathPort_shape v else HostPort_shape v.
Proof.
  unfold accepted, validatePoolMemberName, range_append.
  cbn [type_switch fold_left snd app].
  destruct (Nat.leb 2 (strings_Count v 58)).
  - rewrite <- re_PoolMember_path_shape. apply negb_if_nil.
  - rewrite <- re_PoolMember_host_shape. apply negb_if_nil.
Qed.

Lemma validateEnabledDisabled_accepts v field :
  accepted (validateEnabledDisabled (VString v) field) <->
  v = runes "enabled" \/ v = runes "disabled".
Proof.
  unfold accepted, validateEnabledDisabled. simpl. rewrite negb_if_nil.
  unfold re_EnabledDisabled, alt.
  rewrite MatchString_Alternate, !MatchString_word. reflexivity.
Qed.

Lemma no_newline_Utility : ~ In 10 (runes "Utility").
Proof. simpl. intuition discriminate. Qed.

Lemma no_newline_regkey : ~ In 10 (runes "regkey").
Proof. simpl. intuition discriminate. Qed.

Lemma validatePoolLicenseType_accepts v field :
  accepted (validatePoolLicenseType (VString v) field) <->
  exists l, line_of l v /\ PoolLicenseType_claimed l.
Proof.
  unfold accepted, validatePoolLicenseType. simpl. rewrite negb_if_nil.
  unfold re_PoolLicenseType, alt, PoolLicenseType_claimed.
  rewrite MatchString_Alternate.
  rewrite (MatchString_word_mi _ _ no_newline_Utility).
  rewrite (MatchString_word_mi _ _ no_newline_regkey).
  split.
  - intros [(l & Hl & H) | (l & Hl & H)]; exists l; auto.
  - intros (l & Hl & [H | H]); [left | right]; exists l; auto.
Qed.

(** The intersection with the allowed set keeps the size of the input
    exactly when the input lies inside the allowed set. *)
Lemma Set_Len_Intersection (valid s : gset GoString) :
  Set_Len (Set_Intersection valid s) = Set_Len s <-> s ⊆ valid.
Proof.
  unfold Set_Len, Set_Intersection. split.
  - intros H.
    assert (E : valid ∩ s = s).
    { apply set_subseteq_size_eq; [apply intersection_subseteq_r | rewrite H; reflexivity]. }
    rewrite <- E. apply intersection_subseteq_l.
  - intros H. f_equal. rewrite (comm_L (∩)).
    apply subseteq_intersection_1_L. exact H.
Qed.

(** C1, as stated, fails: the pool member validator rejects
    ["/Common/node1:80"].  The value has one colon, so it is checked
    against the host-or-ip:port pattern, which admits no [/]. *)
Lemma validatePoolMemberName_rejects_partition_path :
  ~ accepted (validatePoolMemberName (VString (runes "/Common/node1:80")) (runes "node")).
Proof. unfold accepted. vm_compute. discriminate. Qed.

(** C1, amended: the rule is selected by the colon count.  A value with at
    least 2 colons is accepted exactly when it reads
    /Partition/Node, one more rune, port; any other value exactly when it
    reads host-or-ip:port; a rejected value gets the one error of its
    rule.  So ["1.1.1.1:80"] is accepted, and ["/Common/node1:80"],
    ["1.1.1.1"] and ["/Common/node1"] are each rejected with the
    host-or-ip:port error. *)
Theorem validatePoolMemberName_rule (v field : GoString) :
  (accepted (validatePoolMemberName (VString v) field) <->
     if Nat.leb 2 (strings_Count v 58) then PathPort_shape v else HostPort_shape v) /\
  fst (validatePoolMemberName (VString v) field) = [] /\
  (snd (validatePoolMemberName (VString v) field) = [] \/
   snd (validatePoolMemberName (VString v) field) =
     [if Nat.leb 2 (strings_Count v 58)
      then err_PoolMember_path field else err_PoolMember_host field]) /\
  validatePoolMemberName (VString (runes "1.1.1.1:80")) field = ([], []) /\
  validatePoolMemberName (VString (runes "/Common/node1:80")) field
    = ([], [err_PoolMember_host field]) /\
  validatePoolMemberName (VString (runes "1.1.1.1")) field
    = ([], [err_PoolMember_host field]) /\
  validatePoolMemberName (VString (runes "/Common/node1")) field
    = ([], [err_PoolMember_host field]).
Proof.
  split; [apply validatePoolMemberName_accepts|].
  split; [reflexivity|].
  split; [|repeat split; vm_compute; reflexivity].
  unfold validatePoolMemberName, range_append.
  cbn [type_switch fold_left snd app].
  destruct (Nat.leb 2 (strings_Count v 58)).
  - destruct (MatchString re_PoolMember_path v); simpl; auto.
  - destruct (MatchString re_PoolMember_host v); simpl; auto.
Qed.

(** Both rules are live: a value with two colons or more goes to the
    path rule, and is accepted or rejected by it. *)
Lemma validatePoolMemberName_path_rule_examples (field : GoString) :
  validatePoolMemberName (VString (runes "/Common/fe80::1.80")) field = ([], []) /\
  validatePoolMemberName (VString (runes "fe80::1:80")) field
    = ([], [err_PoolMember_path field]).
Proof. split; vm_compute; reflexivity. Qed.

(** C4, as stated, fails: the empty string does not start with [/] and
    contains no whitespace, and the partition-name validator rejects
    it. *)
Lemma validatePartitionName_rejects_empty :
  ~ (accepted (validatePartitionName (VString []) (runes "partition")) <->
     PartitionName_claimed []).
Proof.
  intros [_ H].
  assert (Hc : PartitionName_claimed []).
  { split; [intros c s' E; discriminate E | constructor]. }
  apply H in Hc. unfold accepted in Hc. vm_compute in Hc. discriminate Hc.
Qed.

(** C4, amended: for every string that is not a single character and does
    not begin with a whitespace character, the partition-name validator
    accepts the string if and only if it is non-empty, does not start with
    [/] and contains none of the whitespace characters of [\s] (space, tab,
    newline, form feed, carriage return). *)
Theorem validatePartitionName_rule (v field : GoString) :
  length v <> 1%nat ->
  (forall c s', v = c :: s' -> is_space c = false) ->
  (accepted (validatePartitionName (VString v) field) <->
   v <> [] /\ PartitionName_claimed v).
Proof.
  intros Hlen Hfirst. rewrite validatePartitionName_accepts.
  unfold PartitionName_claimed. split.
  - intros (c & rest & -> & Hc & Hr & Ha).
    split; [discriminate|]. split.
    + intros c' s' E. injection E as <- <-. exact Hc.
    + constructor; [|exact Ha].
      rewrite (Hfirst c rest eq_refl). reflexivity.
  - intros (Hne & Hslash & Hall).
    destruct v as [|c rest]; [contradiction|].
    destruct rest as [|c2 rest]; [simpl in Hlen; contradiction|].
    exists c, (c2 :: rest). repeat split.
    + apply (Hslash c (c2 :: rest)). reflexivity.
    + discriminate.
    + inversion Hall; assumption.
Qed.

Lemma validatePartitionName_rule_witness :
  length (runes "Common") <> 1%nat /\
  (forall c s', runes "Common" = c :: s' -> is_space c = false) /\
  (accepted (validatePartitionName (VString (runes "Common")) (runes "partition")) <->
   runes "Common" <> [] /\ PartitionName_claimed (runes "Common")).
Proof.
  assert (H1 : length (runes "Common") <> 1%nat) by (simpl; discriminate).
  assert (H2 : forall c s', runes "Common" = c :: s' -> is_space c = false).
  { intros c s' E. injection E as <- _. reflexivity. }
  split; [exact H1|]. split; [exact H2|].
  exact (validatePartitionName_rule (runes "Common") (runes "partition") H1 H2).
Defined.

(** C5, as stated, fails: ["/a:b/c"] has the form /Partition/Name with
    both segments drawn from letters, digits and [. _ - :], and the object
    path validator rejects it. *)
Lemma validateF5Name_rejects_colon_in_partition :
  ~ (accepted (validateF5Name (VString (runes "/a:b/c")) (runes "name")) <->
     F5Name_claimed (runes "/a:b/c")).
Proof.
  intros [_ H].
  assert (Hc : F5Name_claimed (runes "/a:b/c")).
  { exists (runes "a:b"), (runes "c").
    repeat split; try discriminate; repeat constructor. }
  apply H in Hc. unfold accepted in Hc. vm_compute in Hc. discriminate Hc.
Qed.

(** C5, amended: the object path validator accepts a string if and only if
    it has the form /Partition/Name where both segments are non-empty, the
    Partition segment is drawn from ASCII letters, digits and [. _ -] (no
    colon), and the Name segment from ASCII letters, digits and
    [. _ - :]; it accepts ["/Common/my-pool"] and rejects
    ["Common/my-pool"] and ["/Common"]. *)
Theorem validateF5Name_rule (v field : GoString) :
  (accepted (validateF5Name (VString v) field) <->
     F5Name_shape partition_char name_char v) /\
  fst (validateF5Name (VString v) field) = [] /\
  accepted (validateF5Name (VString (runes "/Common/my-pool")) field) /\
  ~ accepted (validateF5Name (VString (runes "Common/my-pool")) field) /\
  ~ accepted (validateF5Name (VString (runes "/Common")) field).
Proof.
  split; [apply validateF5Name_accepts|].
  split; [reflexivity|].
  unfold accepted. repeat split; vm_compute; congruence.
Qed.

(** C6, as stated, fails: the two-line string ["x\nregkey"] equals
    neither ["Utility"] nor ["regkey"] under case-insensitive comparison,
    and the pool license type validator accepts it. *)
Lemma validatePoolLicenseType_accepts_second_line :
  ~ (accepted (validatePoolLicenseType
                 (VString (runes "x" ++ [10] ++ runes "regkey")) (runes "license_type")) <->
     PoolLicenseType_claimed (runes "x" ++ [10] ++ runes "regkey")).
Proof.
  intros [H _].
  assert (Ha : accepted (validatePoolLicenseType
                 (VString (runes "x" ++ [10] ++ runes "regkey")) (runes "license_type"))).
  { unfold accepted. vm_compute. reflexivity. }
  apply H in Ha. destruct Ha as [E | E]; apply Forall2_length in E; discriminate E.
Qed.

(** C6, amended: the pattern carries flag m, so its anchors are line
    anchors.  The pool license type validator accepts a string if and only
    if one of its lines equals ["Utility"] or ["regkey"] under
    case-insensitive comparison (Unicode simple folding); every other
    string yields one error. *)
Theorem validatePoolLicenseType_rule (v field : GoString) :
  (accepted (validatePoolLicenseType (VString v) field) <->
     exists l, line_of l v /\ PoolLicenseType_claimed l) /\
  fst (validatePoolLicenseType (VString v) field) = [] /\
  (snd (validatePoolLicenseType (VString v) field) = [] \/
   snd (validatePoolLicenseType (VString v) field) =
     [Errorf "%q must match as Utility (or) Regkey" [AString field]]).
Proof.
  split; [apply validatePoolLicenseType_accepts|].
  split; [reflexivity|].
  unfold validatePoolLicenseType, range_append.
  cbn [type_switch fold_left snd app].
  destruct (MatchString re_PoolLicenseType v); simpl; auto.
Qed.

(** On a string without a newline the per-line rule is the rule of the
    specification. *)
Lemma validatePoolLicenseType_single_line (v field : GoString) :
  ~ In 10 v ->
  (accepted (validatePoolLicenseType (VString v) field) <-> PoolLicenseType_claimed v).
Proof.
  intros Hv. rewrite validatePoolLicenseType_accepts. split.
  - intros (l & Hl & H). apply (line_of_single l v Hv) in Hl. subst. exact H.
  - intros H. exists v. split; [apply line_of_single; auto | exact H].
Qed.

(** C7: the enabled/disabled validator accepts exactly the strings
    ["enabled"] and ["disabled"], with no errors, and answers every other
    string, ["Enabled"], ["on"] and [""] among them, with one error. *)
Theorem validateEnabledDisabled_exact (v field : GoString) :
  (accepted (validateEnabledDisabled (VString v) field) <->
     v = runes "enabled" \/ v = runes "disabled") /\
  fst (validateEnabledDisabled (VString v) field) = [] /\
  (snd (validateEnabledDisabled (VString v) field) = [] \/
   snd (validateEnabledDisabled (VString v) field) =
     [Errorf "%q must match as enabled or disabled" [AString field]]) /\
  validateEnabledDisabled (VString (runes "enabled")) field = ([], []) /\
  validateEnabledDisabled (VString (runes "disabled")) field = ([], []) /\
  length (snd (validateEnabledDisabled (VString (runes "Enabled")) field)) = 1%nat /\
  length (snd (validateEnabledDisabled (VString (runes "on")) field)) = 1%nat /\
  length (snd (validateEnabledDisabled (VString []) field)) = 1%nat.
Proof.
  split; [apply validateEnabledDisabled_accepts|].
  split; [reflexivity|].
  split; [|repeat split; vm_compute; reflexivity].
  unfold validateEnabledDisabled, range_append.
  cbn [type_switch fold_left snd app].
  destruct (MatchString re_EnabledDisabled v); simpl; auto.
Qed.

(** C8: the set-membership validator returns no warnings; it returns no
    error when every element of the input set is allowed, and exactly one
    error, which names the field and lists the elements of the input set,
    when some element is not; so it does for allowed = {a, b} and input
    {a, c}. *)
Theorem validateSetValues_rule (valid s : gset GoString) (field : GoString) :
  validateSetValues valid (VSet s) field =
    Some ([], if decide (s ⊆ valid) then []
              else [Errorf "%q can only contain %v"
                      [AString field; AStrings (Set_List s)]]) /\
  (forall x, In x (Set_List s) <-> x ∈ s) /\
  (s ⊆ valid \/ exists x, x ∈ s /\ x ∉ valid) /\
  validateSetValues {[runes "a"; runes "b"]} (VSet {[runes "a"; runes "c"]}) field =
    Some ([], [Errorf "%q can only contain %v"
                 [AString field; AStrings (Set_List {[runes "a"; runes "c"]})]]).
Proof.
  split; [|split; [|split]].
  - unfold validateSetValues.
    destruct (Nat.eqb (Set_Len (Set_Intersection valid s)) (Set_Len s)) eqn:E; simpl.
    + apply Nat.eqb_eq, Set_Len_Intersection in E.
      destruct (decide (s ⊆ valid)); [reflexivity | contradiction].
    + apply Nat.eqb_neq in E.
      destruct (decide (s ⊆ valid)) as [Hs|]; [|reflexivity].
      apply Set_Len_Intersection in Hs. contradiction.
  - intros x. unfold Set_List. rewrite <- list_elem_of_In. apply elem_of_elements.
  - destruct (decide (s ⊆ valid)) as [Hs | Hs]; [left; exact Hs | right].
    destruct (decide (Exists (fun x => x ∉ valid) (elements s))) as [Hex | Hno].
    + apply Exists_exists in Hex as (x & Hx & Hxv).
      exists x. split; [apply elem_of_elements; exact Hx | exact Hxv].
    + exfalso. apply Hs. intros x Hx.
      destruct (decide (x ∈ valid)) as [|Hn]; [assumption|].
      exfalso. apply Hno. apply Exists_exists. exists x.
      split; [apply elem_of_elements; exact Hx | exact Hn].
  - vm_compute. reflexivity.
Qed.

(** ** Calls in sequence *)

Module SequentialFacts.

Lemma reads_only_ret {A : Type} (a : A) : Sequential.reads_only (Sequential.ret a).
Proof. intros m. reflexivity. Qed.

Lemma reads_only_panic {A : Type} : Sequential.reads_only (@Sequential.panic A).
Proof. intros m. reflexivity. Qed.

Lemma reads_only_bind {A B : Type} (x : Sequential.Go A) (f : A -> Sequential.Go B) :
  Sequential.reads_only x -> (forall a, Sequential.reads_only (f a)) ->
  Sequential.reads_only (Sequential.bind x f).
Proof.
  intros Hx Hf m. unfold Sequential.bind. specialize (Hx m).
  destruct (x m) as [[a|] m']; simpl in *; subst; [apply Hf | reflexivity].
Qed.

Lemma reads_only_read_set p : Sequential.reads_only (Sequential.read_set p).
Proof.
  intros m. unfold Sequential.read_set.
  destruct p as [a|]; [|reflexivity]. destruct (m !! a) as [[s|l]|]; reflexivity.
Qed.

Lemma reads_only_read_strings p : Sequential.reads_only (Sequential.read_strings p).
Proof.
  intros m. unfold Sequential.read_strings.
  destruct p as [a|]; [|reflexivity]. destruct (m !! a) as [[s|l]|]; reflexivity.
Qed.

Lemma reads_only_assert_set value : Sequential.reads_only (Sequential.assert_set value).
Proof. destruct value; intros m; reflexivity. Qed.

Lemma reads_only_assert_string value :
  Sequential.reads_only (Sequential.assert_string value).
Proof. destruct value; intros m; reflexivity. Qed.

Lemma reads_only_type_switch fn value :
  Sequential.reads_only (Sequential.type_switch fn value).
Proof.
  destruct value; simpl;
    first [ apply reads_only_ret
          | apply reads_only_bind;
            [ first [apply reads_only_read_set | apply reads_only_read_strings]
            | intros; apply reads_only_ret ] ].
Qed.

Lemma reads_only_range_values body switched :
  Sequential.reads_only (Sequential.range_values body switched).
Proof. apply reads_only_ret. Qed.

Lemma reads_only_validateSetValues valid value field :
  Sequential.reads_only (Sequential.validateSetValues valid value field).
Proof.
  unfold Sequential.validateSetValues.
  repeat first
    [ apply reads_only_ret
    | apply reads_only_read_set
    | apply reads_only_assert_set
    | apply reads_only_bind; [|intros ?]
    | match goal with |- context [if ?b then _ else _] => destruct b end ].
Qed.

Lemma reads_only_validateStringValue_loop values value :
  Sequential.reads_only (Sequential.validateStringValue_loop values value).
Proof.
  induction values as [|v values IH]; simpl; [apply reads_only_ret|].
  apply reads_only_bind; [apply reads_only_assert_string|].
  intros s. destruct (GoString_eqb v s); [apply reads_only_ret | exact IH].
Qed.

Lemma reads_only_validateStringValue values value field :
  Sequential.reads_only (Sequential.validateStringValue values value field).
Proof.
  unfold Sequential.validateStringValue.
  apply reads_only_bind; [apply reads_only_validateStringValue_loop|].
  intros [|]; apply reads_only_ret.
Qed.

Lemma reads_only_string_validators :
  Forall (fun f => forall value field, Sequential.reads_only (f value field))
         Sequential.string_validators.
Proof.
  unfold Sequential.string_validators.
  repeat (apply List.Forall_cons;
    [ intros value field; apply reads_only_bind;
      [ apply reads_only_type_switch | intros ?; apply reads_only_range_values ]
    | ]).
  apply List.Forall_nil.
Qed.

(** A second call of code that only reads returns what the first call
    returned. *)
Lemma twice_reads_only {A : Type} (f : Sequential.interface -> GoString -> Sequential.Go A)
    value field m :
  Sequential.reads_only (f value field) ->
  Sequential.twice f value field m = (fst (f value field m), fst (f value field m), m).
Proof.
  intros H. unfold Sequential.twice. pose proof (H m) as Hm.
  destruct (f value field m) as [r m1] eqn:E. simpl in Hm. subst m1.
  rewrite E. reflexivity.
Qed.

(** Nothing in the type of a call gives this: code that wrote to memory
    what it read from it could return something else the second time. *)
Lemma twice_not_for_writers :
  exists (f : Sequential.interface -> GoString -> Sequential.Go bool) value field m,
    fst (fst (Sequential.twice f value field m))
      <> snd (fst (Sequential.twice f value field m)).
Proof.
  exists (fun _ _ m =>
            (Some (bool_decide (is_Some (m !! 0))), <[0 := Sequential.ObjStrings []]> m)),
         (Sequential.IOther ""), [], ∅.
  vm_compute. discriminate.
Qed.

(** On the contents behind its argument, each validator with the type
    switch returns what the validator on values returns, and it panics
    exactly when its argument is a pointer without contents. *)
Lemma string_validators_resolve :
  Forall2 (fun F f =>
             forall value field m,
               F value field m
                 = (option_map (fun v => f v field) (Sequential.resolve m value), m))
          Sequential.string_validators string_validators.
Proof.
  unfold Sequential.string_validators, string_validators.
  repeat (apply List.Forall2_cons;
    [ intros [[a|]| l |[a|]| s | t] field m;
      unfold Sequential.validateF5Name, Sequential.validateF5NameWithDirectory,
        Sequential.validatePartitionName, Sequential.validatePoolMemberName,
        Sequential.validateEnabledDisabled, Sequential.validateReqPrefDisabled,
        Sequential.validateDataGroupType, Sequential.validatePoolLicenseType,
        Sequential.validateAssignmentType,
        validateF5Name, validateF5NameWithDirectory, validatePartitionName,
        validatePoolMemberName, validateEnabledDisabled, validateReqPrefDisabled,
        validateDataGroupType, validatePoolLicenseType, validateAssignmentType,
        Sequential.type_switch, type_switch, Sequential.resolve, Sequential.bind,
        Sequential.ret, Sequential.range_values, Sequential.read_set,
        Sequential.read_strings;
      try reflexivity; destruct (m !! a) as [[s|l]|]; reflexivity
    | ]).
  apply List.Forall2_nil.
Qed.

Lemma bind_read_set {B : Type} (p : pointer) (f : gset GoString -> Sequential.Go B)
    (m : Sequential.memory) :
  Sequential.bind (Sequential.read_set p) f m
    = match fst (Sequential.read_set p m) with
      | Some s => f s m
      | None => (None, m)
      end.
Proof.
  unfold Sequential.bind. pose proof (reads_only_read_set p m) as H.
  destruct (Sequential.read_set p m) as [[s|] m']; simpl in *; subst; reflexivity.
Qed.

(** On the contents behind its arguments the set validator returns what
    the validator on values returns; it panics when one of the two
    pointers is without contents, and when the value is no set. *)
Lemma validateSetValues_resolve valid value field m :
  Sequential.validateSetValues valid value field m
    = (match fst (Sequential.read_set valid m), Sequential.resolve m value with
       | Some allowed, Some v => validateSetValues allowed v field
       | _, _ => None
       end, m).
Proof.
  unfold Sequential.validateSetValues.
  destruct value as [p | l | p | s | t];
    try (cbn [Sequential.assert_set Sequential.resolve];
         unfold Sequential.bind at 1, Sequential.panic;
         destruct (fst (Sequential.read_set valid m));
         try destruct (fst (Sequential.read_strings p m)); reflexivity).
  cbn [Sequential.assert_set Sequential.resolve].
  unfold Sequential.bind at 1, Sequential.ret at 1. rewrite bind_read_set.
  destruct (fst (Sequential.read_set valid m)) as [allowed|];
    [|destruct (option_map VSet (Sequential.read_set p m).1); reflexivity].
  rewrite bind_read_set.
  destruct (fst (Sequential.read_set p m)) as [other|] eqn:E; [|reflexivity].
  unfold Sequential.bind at 1, Sequential.ret at 1. rewrite bind_read_set, E.
  cbn [option_map validateSetValues].
  destruct (negb (Nat.eqb (Set_Len (Set_Intersection allowed other)) (Set_Len other)));
    [|reflexivity].
  unfold Sequential.bind at 1, Sequential.ret at 1. rewrite bind_read_set, E.
  reflexivity.
Qed.

End SequentialFacts.

(** C9: every field validator is deterministic and idempotent.  A call
    only reads the memory behind the pointers it is given and leaves it as
    it found it; so two calls in sequence on the same value and field name
    have the same outcome, the same (warnings, errors) or the same panic,
    and the memory after both is the memory before. *)
Theorem validators_deterministic (valid : pointer) (values : list GoString) :
  Forall (fun f : Sequential.interface -> GoString -> Sequential.Go diagnostics =>
            forall value field m,
              snd (f value field m) = m /\
              Sequential.twice f value field m
                = (fst (f value field m), fst (f value field m), m))
         (Sequential.validators valid values).
Proof.
  assert (H : Forall (fun f => forall value field, Sequential.reads_only (f value field))
                     (Sequential.validators valid values)).
  { unfold Sequential.validators.
    apply List.Forall_cons;
      [intros; apply SequentialFacts.reads_only_validateSetValues|].
    apply List.Forall_cons;
      [intros; apply SequentialFacts.reads_only_validateStringValue|].
    exact SequentialFacts.reads_only_string_validators. }
  rewrite Forall_forall in H. apply Forall_forall. intros f Hf value field m.
  split; [apply (H f Hf) | apply SequentialFacts.twice_reads_only, (H f Hf)].
Qed.

(** ** The session factory *)

(** Every world gives an execution: [Client] and [validateConnection]
    always return. *)
Lemma interp_exec {A : Type} (w : world) (p : Prog A) (past : list Obs) :
  exists tr,
    fst (interp w p past) = rev tr ++ past /\
    exec p tr (snd (interp w p past)).
Proof.
  revert past. induction p as [a | X e k IH]; intros past; simpl.
  - exists []. auto.
  - destruct (IH (w X e past) (observe e (w X e past) :: past)) as (tr & Htr & Hex).
    exists (observe e (w X e past) :: tr). split.
    + rewrite Htr. simpl. rewrite <- app_assoc. reflexivity.
    + exists (w X e past), tr. auto.
Qed.

Lemma nonempty_false s : nonempty s = false <-> s = [].
Proof. unfold nonempty. destruct s; simpl; split; congruence. Qed.

Lemma nonempty_true s : nonempty s = true <-> s <> [].
Proof. unfold nonempty. destruct s; simpl; split; congruence. Qed.

Lemma required_fields c :
  Address c <> [] -> Username c <> [] -> Password c <> [] ->
  nonempty (Address c) && nonempty (Username c) && nonempty (Password c) = true.
Proof.
  intros Ha Hu Hp. apply nonempty_true in Ha, Hu, Hp. rewrite Ha, Hu, Hp. reflexivity.
Qed.

(** Take an execution apart, call by call. *)
Ltac steps :=
  repeat match goal with
    | H : exec _ _ _ |- _ => progress (cbn in H)
    | H : exists _, _ |- _ => destruct H as [? H]
    | H : _ /\ _ |- _ => destruct H as [? ?]
    | H : exec (match ?x with _ => _ end) _ _ |- _ => destruct x
    | H : exec (bind (match ?x with _ => _ end) _) _ _ |- _ => destruct x
    | H : exec (let '(_, _) := ?x in _) _ _ |- _ => destruct x
    | H : exec (if ?b then _ else _) _ _ |- _ => destruct b
    end; subst.

(** C3: with an empty address, username or password, [Client] is the
    program that returns a nil handle and the configuration error at once:
    it performs no call at all, neither token login nor session
    construction nor the liveness check. *)
Theorem Client_missing_field (c : Config) :
  Address c = [] \/ Username c = [] \/ Password c = [] ->
  Client c =
    Ret (None, Some (Errorf "BigIP provider requires address, username and password" [])) /\
  (forall tr r, exec (Client c) tr r ->
     tr = [] /\
     r = (None, Some (Errorf "BigIP provider requires address, username and password" []))).
Proof.
  intros H.
  assert (E : nonempty (Address c) && nonempty (Username c) && nonempty (Password c) = false).
  { destruct H as [H | [H | H]]; rewrite H; cbn [nonempty is_empty negb].
    - reflexivity.
    - rewrite andb_false_r. reflexivity.
    - apply andb_false_r. }
  assert (EC : Client c =
    Ret (None, Some (Errorf "BigIP provider requires address, username and password" []))).
  { unfold Client. rewrite E. reflexivity. }
  split; [exact EC|].
  intros tr r Hex. rewrite EC in Hex. simpl in Hex. exact Hex.
Qed.

Lemma Client_missing_field_witness :
  (Address config_without_password = [] \/
   Username config_without_password = [] \/
   Password config_without_password = []) /\
  Client config_without_password =
    Ret (None, Some (Errorf "BigIP provider requires address, username and password" [])).
Proof.
  assert (H : Address config_without_password = [] \/
              Username config_without_password = [] \/
              Password config_without_password = []).
  { right. right. reflexivity. }
  split; [exact H|].
  exact (proj1 (Client_missing_field config_without_password H)).
Defined.

(** C2, as stated, fails: in this run of [Client] the liveness request
    succeeds with an empty result, a list without entries, and no warning
    is logged; [validateConnection] compares the pointer with nil and never
    looks at the list. *)
Lemma Client_empty_list_no_warning :
  exec (Client config_basic) trace_empty_list (Some 1, None) /\
  In (ObsSelfIPs (Some 1) (Some []) None) trace_empty_list /\
  ~ liveness_claimed trace_empty_list (Some 1, None) (Some 1) (Some []) None.
Proof.
  split; [|split].
  - cbn.
    exists tt, (tl trace_empty_list). split; [reflexivity|]. cbn.
    exists (Some 1), (tl (tl trace_empty_list)). split; [reflexivity|]. cbn.
    exists (Some [], None), []. split; [reflexivity|]. cbn. auto.
  - simpl. auto.
  - unfold liveness_claimed. cbn. intros [_ H]. discriminate H.
Qed.

(** C2, amended: when the required fields are present, every run of
    [Client] is of one of two kinds.  Either token login failed: its error
    is returned with no handle and no liveness request is made.  Or
    authentication gave a handle [b], and [Client] then requests the
    self-IPs exactly once, on [b], logs what [validateConnection] logs and
    nothing else, and the request decides the result: with an error,
    [Client] returns that error and no handle; with no error and a nil
    result, it returns [b] with a nil error and has logged a warning; with
    no error and a non-nil result, whatever the list holds, it returns
    [b] with a nil error and has logged no warning. *)
Theorem Client_liveness (c : Config) (tr : list Obs) (r : pointer * error_value) :
  Address c <> [] -> Username c <> [] -> Password c <> [] ->
  exec (Client c) tr r ->
  (exists b e,
     LoginReference c <> [] /\
     tr = [obs_info; obs_token c b (Some e);
           ObsPrintf "[ERROR] Error creating New Token Session %s " [e]] /\
     r = (None, Some e)) \/
  (exists b t err,
     tr = obs_info :: obs_login c b :: ObsSelfIPs b t err :: liveness_log t err /\
     match err with
     | Some e => r = (None, Some e)
     | None =>
         r = (b, None) /\
         existsb is_warning tr = match t with None => true | Some _ => false end
     end).
Proof.
  intros Ha Hu Hp Hex. unfold Client in Hex.
  rewrite (required_fields c Ha Hu Hp) in Hex.
  unfold obs_login.
  destruct (nonempty (LoginReference c)) eqn:El;
    unfold validateConnection, mbind, mret, Prog_bind, Prog_ret, call in Hex;
    steps; cbn [fst snd].
  all: try (left; eexists _, _; split; [apply nonempty_true; exact El|];
            split; reflexivity).
  all: right;
    match goal with
    | |- context [ObsSelfIPs ?b ?t ?e :: _] => exists b, t, e
    end; split; [reflexivity|]; cbn; auto.
Qed.

Lemma trace_nil_result_exec : exec (Client config_basic) trace_nil_result (Some 1, None).
Proof.
  unfold trace_nil_result. cbn.
  exists tt, (tl trace_nil_result). split; [reflexivity|]. cbn.
  exists (Some 1), (tl (tl trace_nil_result)). split; [reflexivity|]. cbn.
  exists (None, None), (tl (tl (tl trace_nil_result))). split; [reflexivity|]. cbn.
  exists tt, []. split; [reflexivity|]. cbn. split; reflexivity.
Defined.

Lemma Client_liveness_witness :
  Address config_basic <> [] /\ Username config_basic <> [] /\
  Password config_basic <> [] /\
  exec (Client config_basic) trace_nil_result (Some 1, None) /\
  ((exists b e,
      LoginReference config_basic <> [] /\
      trace_nil_result
        = [obs_info; obs_token config_basic b (Some e);
           ObsPrintf "[ERROR] Error creating New Token Session %s " [e]] /\
      (Some 1, None) = (None, Some e)) \/
   (exists b t err,
      trace_nil_result
        = obs_info :: obs_login config_basic b :: ObsSelfIPs b t err :: liveness_log t err /\
      match err with
      | Some e => (Some 1, None) = (None, Some e)
      | None =>
          (Some 1, None) = (b, @None error) /\
          existsb is_warning trace_nil_result
            = match t with None => true | Some _ => false end
      end)).
Proof.
  assert (Ha : Address config_basic <> []) by discriminate.
  assert (Hu : Username config_basic <> []) by discriminate.
  assert (Hp : Password config_basic <> []) by discriminate.
  repeat (split; [assumption || exact trace_nil_result_exec|]).
  exact (Client_liveness config_basic trace_nil_result (Some 1, None)
           Ha Hu Hp trace_nil_result_exec).
Defined.

(** The liveness check is reached unless token login failed. *)
Lemma Client_reaches_liveness (c : Config) (tr : list Obs) (r : pointer * error_value) :
  Address c <> [] -> Username c <> [] -> Password c <> [] ->
  exec (Client c) tr r ->
  (exists b t err, In (ObsSelfIPs b t err) tr) \/
  (exists b e, LoginReference c <> [] /\ r = (None, Some e) /\
     In (ObsNewTokenSession (Address c) (Port c) (Username c) (Password c)
           (LoginReference c) (ConfigOptions c) b (Some e)) tr).
Proof.
  intros Ha Hu Hp Hex. unfold Client in Hex.
  rewrite (required_fields c Ha Hu Hp) in Hex.
  unfold validateConnection, mbind, mret, Prog_bind, Prog_ret, call in Hex.
  destruct (nonempty (LoginReference c)) eqn:El.
  - apply nonempty_true in El. steps.
    all: try (left; do 3 eexists; simpl; eauto 6; fail).
    right. eexists _, _. split; [assumption|]. split; [reflexivity|].
    simpl. right. left. reflexivity.
  - steps. all: left; do 3 eexists; simpl; eauto 6.
Qed.

(** C10, as stated, fails: nothing in [Client] looks at the handle a
    constructor returns.  In this run [NewSession] returns nil, the
    liveness request reports no error, and [Client] returns a nil handle
    with a nil error. *)
Lemma Client_nil_session_neither :
  exec (Client config_basic) trace_nil_session (None, None) /\
  ~ (fst (@None N, @None error) <> None <-> snd (@None N, @None error) = None).
Proof.
  split.
  - cbn.
    exists tt, (tl trace_nil_session). split; [reflexivity|]. cbn.
    exists None, (tl (tl trace_nil_session)). split; [reflexivity|]. cbn.
    exists (None, None), (tl (tl (tl trace_nil_session))). split; [reflexivity|]. cbn.
    exists tt, []. split; [reflexivity|]. cbn. split; reflexivity.
  - simpl. intros [_ H]. apply H; reflexivity.
Qed.

(** C10, amended: [Client] returns a handle or an error, never both and
    never neither, whatever the calls return, as long as the constructors
    of package bigip keep their convention: [NewSession] returns a
    session, and [NewTokenSession] returns a session whenever it reports
    no error. *)
Theorem Client_handle_xor_error (c : Config) (tr : list Obs) (r : pointer * error_value) :
  exec (Client c) tr r ->
  Forall constructor_ok tr ->
  (fst r <> None <-> snd r = None).
Proof.
  intros Hex Hok. unfold Client in Hex.
  unfold validateConnection, mbind, mret, Prog_bind, Prog_ret, call in Hex.
  steps.
  all: repeat match goal with
         | H : Forall _ (_ :: _) |- _ => inversion H; clear H; subst
         end.
  all: simpl in *.
  all: split; intros; try congruence; try discriminate; auto.
Qed.

Lemma Client_handle_xor_error_witness :
  exec (Client config_basic) trace_nil_result (Some 1, None) /\
  Forall constructor_ok trace_nil_result /\
  (fst (Some 1, @None error) <> None <-> snd (Some 1, @None error) = None).
Proof.
  assert (Hok : Forall constructor_ok trace_nil_result).
  { repeat constructor. discriminate. }
  split; [exact trace_nil_result_exec|]. split; [exact Hok|].
  exact (Client_handle_xor_error config_basic trace_nil_result (Some 1, None)
           trace_nil_result_exec Hok).
Defined.

(** A handle and an error are never returned together; this half needs no
    assumption on the constructors. *)
Lemma Client_never_both (c : Config) (tr : list Obs) (r : pointer * error_value) :
  exec (Client c) tr r -> fst r = None \/ snd r = None.
Proof.
  intros Hex. unfold Client in Hex.
  unfold validateConnection, mbind, mret, Prog_bind, Prog_ret, call in Hex.
  steps. all: simpl; auto.
Qed.

(** Each of the three outcomes of the liveness check occurs in some
    execution. *)
Lemma Client_liveness_outcomes (t : SelfIPs) (err : error_value) :
  exists tr r,
    exec (Client config_basic) tr r /\ In (ObsSelfIPs (Some 1) t err) tr.
Proof.
  destruct err as [e|]; [|destruct t as [a|]].
  - exists [ObsPrintln "[INFO] Initializing BigIP connection";
            ObsNewSession (runes "192.0.2.10") (runes "443") (runes "admin")
              (runes "secret") None (Some 1);
            ObsSelfIPs (Some 1) t (Some e);
            ObsPrintf "[ERROR] Connection to BigIP device could not have been validated: %v " [e]],
           (None, Some e).
    split; [|simpl; auto]. cbn.
    eexists tt, _. split; [reflexivity|]. cbn.
    eexists (Some 1), _. split; [reflexivity|]. cbn.
    eexists (t, Some e), _. split; [reflexivity|]. cbn.
    eexists tt, _. split; [reflexivity|]. cbn. auto.
  - exists [ObsPrintln "[INFO] Initializing BigIP connection";
            ObsNewSession (runes "192.0.2.10") (runes "443") (runes "admin")
              (runes "secret") None (Some 1);
            ObsSelfIPs (Some 1) (Some a) None],
           (Some 1, None).
    split; [|simpl; auto]. cbn.
    eexists tt, _. split; [reflexivity|]. cbn.
    eexists (Some 1), _. split; [reflexivity|]. cbn.
    eexists (Some a, None), _. split; [reflexivity|]. cbn. auto.
  - exists trace_nil_result, (Some 1, None).
    split; [exact trace_nil_result_exec | simpl; auto].
Qed.

(** * Further properties of validators.go *)

Module MoreShapes.
Import RegexpFacts Shapes.

Lemma MatchString_Capture r s :
  MatchString (Capture r) s = true <-> MatchString r s = true.
Proof. rewrite !MatchString_spec. reflexivity. Qed.

Lemma re_F5Directory_shape s :
  MatchString
    (cat [BeginText; Literal false (runes "/"); Plus word_dash_dot;
          Literal false (runes "/"); Plus word_dash_dot_colon;
          Literal false (runes "/"); Plus word_dash_dot_colon; EndText]) s = true
  <-> F5Directory_shape s.
Proof.
  rewrite MatchString_spec. unfold F5Directory_shape. cbn [cat matches].
  split.
  - intros H. pieces. rewrite !app_nil_r. simpl.
    match goal with
    | HP : Forall _ ?P, HD : Forall _ ?D, HN : Forall _ ?N
      |- exists _ _ _, _ :: ?P ++ _ :: ?D ++ _ :: ?N = _ /\ _ => exists P, D, N
    end.
    repeat split; try assumption.
    + eapply all_of_ext; [|eassumption]. intros; symmetry; apply word_dash_dot_chars.
    + eapply all_of_ext; [|eassumption]. intros; symmetry; apply word_dash_dot_colon_chars.
    + eapply all_of_ext; [|eassumption]. intros; symmetry; apply word_dash_dot_colon_chars.
  - intros (P & D & N & -> & HP & HPa & HD & HDa & HN & HNa).
    exists [], (runes "/" ++ P ++ runes "/" ++ D ++ runes "/" ++ N), [].
    split; [rewrite app_nil_r; reflexivity|].
    exists [], (runes "/" ++ P ++ runes "/" ++ D ++ runes "/" ++ N). repeat split.
    exists (runes "/"), (P ++ runes "/" ++ D ++ runes "/" ++ N). repeat split.
    { apply literal_exact. reflexivity. }
    exists P, (runes "/" ++ D ++ runes "/" ++ N). repeat split; [assumption | |].
    { eapply all_of_ext; [|exact HPa]. apply word_dash_dot_chars. }
    exists (runes "/"), (D ++ runes "/" ++ N). repeat split.
    { apply literal_exact. reflexivity. }
    exists D, (runes "/" ++ N). repeat split; [assumption | |].
    { eapply all_of_ext; [|exact HDa]. apply word_dash_dot_colon_chars. }
    exists (runes "/"), N. repeat split.
    { apply literal_exact. reflexivity. }
    exists N, []. rewrite app_nil_r. repeat split; [assumption|].
    eapply all_of_ext; [|exact HNa]. apply word_dash_dot_colon_chars.
Qed.

Lemma range_append_flat_map body values errors :
  range_append body values errors = errors ++ flat_map body values.
Proof.
  unfold range_append. revert errors.
  induction values as [|v values IH]; intros errors; simpl.
  - rewrite app_nil_r. reflexivity.
  - rewrite IH, <- app_assoc. reflexivity.
Qed.

Lemma flat_map_nil {A B : Type} (f : A -> list B) (l : list A) :
  flat_map f l = [] <-> Forall (fun x => f x = []) l.
Proof.
  induction l as [|x l IH]; simpl.
  - split; [constructor | reflexivity].
  - split.
    + intros H. apply app_eq_nil in H as [H1 H2]. constructor; [exact H1 | apply IH, H2].
    + intros H. inversion H as [|? ? H1 H2]; subst. rewrite H1. apply IH, H2.
Qed.

Lemma no_newline_word (w : string) :
  forallb (fun c => negb (rune_eqb c 10)) (runes w) = true -> ~ In 10 (runes w).
Proof.
  intros H Hin. rewrite forallb_forall in H. apply H in Hin. discriminate Hin.
Qed.

End MoreShapes.

Import MoreShapes.

(** ** validateStringValue *)

Lemma GoString_eqb_eq a b : GoString_eqb a b = true <-> a = b.
Proof.
  revert b. induction a as [|x a IH]; intros [|y b]; simpl; try (split; congruence).
  rewrite andb_true_iff, RegexpFacts.rune_eqb_eq, IH. split.
  - intros [-> ->]. reflexivity.
  - intros E. injection E as -> ->. auto.
Qed.

Lemma validateStringValue_loop_string values v :
  validateStringValue_loop values (VString v) = Some (bool_decide (v ∈ values)).
Proof.
  induction values as [|x values IH]; cbn [validateStringValue_loop].
  - rewrite bool_decide_eq_false_2; [reflexivity | apply not_elem_of_nil].
  - destruct (GoString_eqb x v) eqn:E.
    + apply GoString_eqb_eq in E. subst.
      rewrite bool_decide_eq_true_2; [reflexivity | apply elem_of_cons; auto].
    + rewrite IH. f_equal. apply bool_decide_ext. rewrite elem_of_cons.
      split; [auto|]. intros [Hx | H]; [|exact H].
      symmetry in Hx. apply GoString_eqb_eq in Hx. congruence.
Qed.

(** The enum-string validator never panics on a string: it returns no
    error when the string is one of the allowed literals (compared
    exactly, case included), and otherwise one error that names the field
    and lists the allowed literals. *)
Theorem validateStringValue_rule (values : list GoString) (v field : GoString) :
  validateStringValue values (VString v) field =
    Some ([], if bool_decide (v ∈ values) then [] else [err_StringValue values field]).
Proof.
  unfold validateStringValue. rewrite validateStringValue_loop_string.
  destruct (bool_decide (v ∈ values)); reflexivity.
Qed.

(** On a value that is not a string the type assertion sits inside the
    loop: with an empty list of literals nothing is asserted and the
    validator returns its error; with a non-empty list the first
    iteration panics. *)
Theorem validateStringValue_not_string (values : list GoString) (value : value)
    (field : GoString) :
  is_string value = false ->
  validateStringValue values value field =
    match values with
    | [] => Some ([], [err_StringValue [] field])
    | _ :: _ => None
    end.
Proof.
  intros H. unfold validateStringValue.
  destruct values as [|x values]; [reflexivity|].
  destruct value; simpl in *; try reflexivity. discriminate H.
Qed.

Lemma validateStringValue_not_string_witness :
  is_string (VStrings [runes "a"]) = false /\
  validateStringValue [runes "a"] (VStrings [runes "a"]) (runes "mode") = None.
Proof.
  split; [reflexivity|].
  exact (validateStringValue_not_string [runes "a"] (VStrings [runes "a"]) (runes "mode")
           eq_refl).
Defined.

(** ** The pattern validators on single strings *)

Lemma validateF5NameWithDirectory_accepts (v field : GoString) :
  accepted (validateF5NameWithDirectory (VString v) field) <->
    F5Directory_shape v \/ F5Name_shape partition_char name_char v.
Proof.
  unfold accepted, validateF5NameWithDirectory, range_append.
  cbn [type_switch fold_left snd app]. rewrite negb_if_nil.
  unfold re_F5NameWithDirectory.
  rewrite Shapes.MatchString_Alternate, !MatchString_Capture.
  rewrite re_F5Directory_shape. fold re_F5Name.
  rewrite Shapes.re_F5Name_shape. reflexivity.
Qed.

(** The object-path-with-directory validator accepts a string exactly when
    it reads /Partition/Name or /Partition/Directory/Name, every segment
    non-empty, the partition without a colon. *)
Theorem validateF5NameWithDirectory_rule (v field : GoString) :
  (accepted (validateF5NameWithDirectory (VString v) field) <->
     F5Directory_shape v \/ F5Name_shape partition_char name_char v) /\
  (snd (validateF5NameWithDirectory (VString v) field) = [] \/
   snd (validateF5NameWithDirectory (VString v) field) =
     [Errorf "%q must match /Partition/Name or /Partition/Directory/Name  e.g. /Common/my-node or /Common/test/my-node"
        [AString field]]).
Proof.
  split.
  - apply validateF5NameWithDirectory_accepts.
  - unfold validateF5NameWithDirectory, range_append.
    cbn [type_switch fold_left snd app].
    destruct (MatchString re_F5NameWithDirectory v); simpl; auto.
Qed.

(** Whatever the object path validator accepts, the validator with
    directory accepts as well. *)
Theorem validateF5Name_within_directory (v field : GoString) :
  accepted (validateF5Name (VString v) field) ->
  accepted (validateF5NameWithDirectory (VString v) field).
Proof.
  intros H. apply validateF5NameWithDirectory_accepts. right.
  apply validateF5Name_accepts in H. exact H.
Qed.

Lemma validateF5Name_within_directory_witness :
  accepted (validateF5Name (VString (runes "/Common/my-pool")) (runes "pool")) /\
  accepted (validateF5NameWithDirectory (VString (runes "/Common/my-pool")) (runes "pool")).
Proof.
  assert (H : accepted (validateF5Name (VString (runes "/Common/my-pool")) (runes "pool"))).
  { unfold accepted. vm_compute. reflexivity. }
  split; [exact H|].
  exact (validateF5Name_within_directory (runes "/Common/my-pool") (runes "pool") H).
Defined.

(** The required/preferred/disabled validator accepts exactly these three
    strings and answers every other string with one error. *)
Theorem validateReqPrefDisabled_exact (v field : GoString) :
  (accepted (validateReqPrefDisabled (VString v) field) <->
     v = runes "required" \/ v = runes "preferred" \/ v = runes "disabled") /\
  (snd (validateReqPrefDisabled (VString v) field) = [] \/
   snd (validateReqPrefDisabled (VString v) field) =
     [Errorf "%q must match as required, preferred, or disabled" [AString field]]).
Proof.
  split.
  - unfold accepted, validateReqPrefDisabled, range_append.
    cbn [type_switch fold_left snd app]. rewrite negb_if_nil.
    unfold re_ReqPrefDisabled, alt.
    rewrite !Shapes.MatchString_Alternate, !Shapes.MatchString_word. reflexivity.
  - unfold validateReqPrefDisabled, range_append.
    cbn [type_switch fold_left snd app].
    destruct (MatchString re_ReqPrefDisabled v); simpl; auto.
Qed.

(** The data-group type validator accepts exactly ["string"], ["ip"] and
    ["integer"] and answers every other string with one error. *)
Theorem validateDataGroupType_exact (v field : GoString) :
  (accepted (validateDataGroupType (VString v) field) <->
     v = runes "string" \/ v = runes "ip" \/ v = runes "integer") /\
  (snd (validateDataGroupType (VString v) field) = [] \/
   snd (validateDataGroupType (VString v) field) =
     [Errorf "%q must match as string, ip, or integer" [AString field]]).
Proof.
  split.
  - unfold accepted, validateDataGroupType, range_append.
    cbn [type_switch fold_left snd app]. rewrite negb_if_nil.
    unfold re_DataGroupType, alt.
    rewrite !Shapes.MatchString_Alternate, !Shapes.MatchString_word. reflexivity.
  - unfold validateDataGroupType, range_append.
    cbn [type_switch fold_left snd app].
    destruct (MatchString re_DataGroupType v); simpl; auto.
Qed.

(** The device assignment type validator, whose pattern carries flags m
    and i, accepts a string exactly when one of its lines is MANAGED,
    UNMANAGED or UNREACHABLE up to case; on a string without a newline,
    exactly when the string itself is. *)
Theorem validateAssignmentType_rule (v field : GoString) :
  (accepted (validateAssignmentType (VString v) field) <->
     exists l, line_of l v /\ AssignmentType_word l) /\
  (snd (validateAssignmentType (VString v) field) = [] \/
   snd (validateAssignmentType (VString v) field) =
     [Errorf "%q must match as MANAGED/UNMANAGED/UNREACHABLE" [AString field]]).
Proof.
  split.
  - unfold accepted, validateAssignmentType, range_append.
    cbn [type_switch fold_left snd app]. rewrite negb_if_nil.
    unfold re_AssignmentType, alt, AssignmentType_word.
    rewrite !Shapes.MatchString_Alternate.
    rewrite (Shapes.MatchString_word_mi (runes "MANAGED") v (no_newline_word "MANAGED" eq_refl)).
    rewrite (Shapes.MatchString_word_mi (runes "UNMANAGED") v (no_newline_word "UNMANAGED" eq_refl)).
    rewrite (Shapes.MatchString_word_mi (runes "UNREACHABLE") v (no_newline_word "UNREACHABLE" eq_refl)).
    split.
    + intros [(l & Hl & H) | [(l & Hl & H) | (l & Hl & H)]]; exists l; auto.
    + intros (l & Hl & [H | [H | H]]); [left | right; left | right; right]; exists l; auto.
  - unfold validateAssignmentType, range_append.
    cbn [type_switch fold_left snd app].
    destruct (MatchString re_AssignmentType v); simpl; auto.
Qed.

(** ** The pattern validators on slices, sets and other values *)

Ltac open_validator :=
  unfold validateF5Name, validateF5NameWithDirectory, validatePartitionName,
    validatePoolMemberName, validateEnabledDisabled, validateReqPrefDisabled,
    validateDataGroupType, validatePoolLicenseType, validateAssignmentType;
  cbn [type_switch].

Lemma slice_flat_map :
  Forall (fun V : value -> GoString -> diagnostics =>
            forall (l : list GoString) (field : GoString),
              V (VStrings l) field
                = ([], flat_map (fun v => snd (V (VString v) field)) l))
         string_validators.
Proof.
  unfold string_validators.
  repeat (apply List.Forall_cons;
    [ intros l field; open_validator; rewrite range_append_flat_map; reflexivity | ]).
  apply List.Forall_nil.
Qed.

(** Validating a slice is validating its elements one by one, in order,
    and concatenating their errors: nothing stops at the first offending
    value, and no value is checked twice.  A pointer to a slice is
    validated as the slice. *)
Theorem validators_elementwise :
  Forall (fun V : value -> GoString -> diagnostics =>
            forall (l : list GoString) (field : GoString),
              V (VStrings l) field
                = ([], flat_map (fun v => snd (V (VString v) field)) l) /\
              V (VStringsPtr l) field = V (VStrings l) field)
         string_validators.
Proof.
  unfold string_validators.
  repeat constructor; open_validator; rewrite range_append_flat_map; reflexivity.
Qed.

Lemma at_most_one_error :
  Forall (fun V : value -> GoString -> diagnostics =>
            forall v field, (length (snd (V (VString v) field)) <= 1)%nat)
         string_validators.
Proof.
  unfold string_validators.
  repeat (apply List.Forall_cons;
    [ intros v field; open_validator; unfold range_append;
      cbn [fold_left snd app];
      repeat match goal with
        | |- context [if ?b then _ else _] => destruct b
        end; simpl; lia
    | ]).
  apply List.Forall_nil.
Qed.

Lemma flat_map_length_filter {A B : Type} (g : A -> list B) (l : list A) :
  (forall x, (length (g x) <= 1)%nat) ->
  length (flat_map g l)
    = length (List.filter (fun x => match g x with [] => false | _ :: _ => true end) l).
Proof.
  intros Hg. induction l as [|x l IH]; [reflexivity|].
  simpl. rewrite length_app, IH. specialize (Hg x).
  destruct (g x) as [|b [|b' rest]]; simpl in *; [reflexivity | reflexivity | lia].
Qed.

(** A slice gets exactly one error for each of its elements that a call on
    the single string would reject; so a slice is accepted exactly when
    every element is, and the empty slice always is. *)
Theorem validators_one_error_per_offender :
  Forall (fun V : value -> GoString -> diagnostics =>
            forall (l : list GoString) (field : GoString),
              length (snd (V (VStrings l) field))
                = length (List.filter (offends V field) l) /\
              (accepted (V (VStrings l) field) <->
                 Forall (fun v => accepted (V (VString v) field)) l) /\
              accepted (V (VStrings []) field))
         string_validators.
Proof.
  pose proof slice_flat_map as He. pose proof at_most_one_error as H1.
  rewrite Forall_forall in He, H1. apply Forall_forall. intros V HV l field.
  specialize (He V HV). specialize (H1 V HV).
  unfold accepted. split; [|split].
  - rewrite (He l field). simpl.
    apply (flat_map_length_filter (fun v => snd (V (VString v) field))).
    intros v. apply H1.
  - rewrite (He l field). simpl. apply flat_map_nil.
  - rewrite (He [] field). reflexivity.
Qed.

(** A set is validated as the slice of its elements: it is accepted
    exactly when every element is, and the empty set always is. *)
Theorem validators_on_sets :
  Forall (fun V : value -> GoString -> diagnostics =>
            forall (s : gset GoString) (field : GoString),
              V (VSet s) field = V (VStrings (setToStringSlice s)) field /\
              (accepted (V (VSet s) field) <->
                 forall v, v ∈ s -> accepted (V (VString v) field)) /\
              accepted (V (VSet ∅) field))
         string_validators.
Proof.
  pose proof slice_flat_map as He.
  rewrite Forall_forall in He. apply Forall_forall. intros V HV s field.
  assert (E : forall s, V (VSet s) field = V (VStrings (setToStringSlice s)) field).
  { clear s. intros s. revert HV. unfold string_validators.
    rewrite !elem_of_cons, elem_of_nil.
    intros [-> | [-> | [-> | [-> | [-> | [-> | [-> | [-> | [-> | []]]]]]]]]]; reflexivity. }
  split; [apply E | split].
  - rewrite E, (He V HV _ field). unfold accepted. simpl.
    rewrite flat_map_nil, Forall_forall. unfold setToStringSlice, Set_List.
    split; intros H v Hv; apply H; apply elem_of_elements; exact Hv.
  - rewrite E, (He V HV _ field). unfold accepted, setToStringSlice, Set_List.
    rewrite elements_empty. reflexivity.
Qed.

(** A value of any other type is not validated at all: the validator
    returns the one error of its default case, which carries the type.
    Two validators report it under another function's name:
    validateF5NameWithDirectory as validateF5Name, and
    validateAssignmentType as validatePoolLicenseType. *)
Theorem validators_unknown_type (t : string) (field : GoString) :
  validateF5Name (VOther t) field
    = ([], [Errorf "Unknown type %v in validateF5Name" [AType t]]) /\
  validateF5NameWithDirectory (VOther t) field
    = validateF5Name (VOther t) field /\
  validatePartitionName (VOther t) field
    = ([], [Errorf "Unknown type %v in validatePartitionName" [AType t]]) /\
  validatePoolMemberName (VOther t) field
    = ([], [Errorf "Unknown type %v in validatePoolMemberName" [AType t]]) /\
  validateEnabledDisabled (VOther t) field
    = ([], [Errorf "Unknown type %v in validateEnabledDisabled" [AType t]]) /\
  validateReqPrefDisabled (VOther t) field
    = ([], [Errorf "Unknown type %v in validateReqPrefDisabled" [AType t]]) /\
  validateDataGroupType (VOther t) field
    = ([], [Errorf "Unknown type %v in validateDataGroupType" [AType t]]) /\
  validatePoolLicenseType (VOther t) field
    = ([], [Errorf "Unknown type %v in validatePoolLicenseType" [AType t]]) /\
  validateAssignmentType (VOther t) field
    = validatePoolLicenseType (VOther t) field.
Proof. repeat split. Qed.

(** ** What accepted values look like *)

Lemma strings_Count_app a b c :
  strings_Count (a ++ b) c = (strings_Count a c + strings_Count b c)%nat.
Proof.
  induction a as [|x a IH]; simpl; [reflexivity|]. rewrite IH. lia.
Qed.

Lemma strings_Count_none p s c :
  p c = false -> all_of p s -> strings_Count s c = 0%nat.
Proof.
  intros Hp. induction 1 as [|x s Hx _ IH]; simpl; [reflexivity|].
  rewrite IH. destruct (rune_eqb x c) eqn:E; [|reflexivity].
  apply RegexpFacts.rune_eqb_eq in E. congruence.
Qed.

Lemma all_of_app p a b : all_of p (a ++ b) <-> all_of p a /\ all_of p b.
Proof. unfold all_of. apply Forall_app. Qed.

(** An accepted object path starts with a slash, has exactly two slashes
    and does not end with one, and contains no whitespace. *)
Theorem validateF5Name_accepted_path (v field : GoString) :
  accepted (validateF5Name (VString v) field) ->
  (exists rest, v = 47 :: rest) /\
  strings_Count v 47 = 2%nat /\
  (exists front c, v = front ++ [c] /\ c <> 47) /\
  all_of (fun c => negb (is_space c)) v.
Proof.
  intros H. apply validateF5Name_accepts in H.
  destruct H as (P & N & -> & HP & HPa & HN & HNa).
  assert (Hn : forall c, name_char c = true -> negb (is_space c) = true /\ c <> 47).
  { intros c Hc. split.
    - destruct (is_space c) eqn:E; [|reflexivity].
      unfold is_space in E. rewrite !orb_true_iff, !RegexpFacts.rune_eqb_eq in E.
      destruct E as [[[[-> | ->] | ->] | ->] | ->]; discriminate Hc.
    - intros ->. discriminate Hc. }
  assert (Hp : forall c, partition_char c = true -> name_char c = true).
  { intros c Hc. unfold name_char. rewrite Hc. reflexivity. }
  split; [exists (P ++ runes "/" ++ N); reflexivity|]. split; [|split].
  - simpl. rewrite strings_Count_app. simpl.
    rewrite (strings_Count_none partition_char P 47 eq_refl HPa).
    rewrite (strings_Count_none name_char N 47 eq_refl HNa). reflexivity.
  - destruct (exists_last HN) as (N' & c & ->).
    exists (runes "/" ++ P ++ runes "/" ++ N'), c. split.
    + rewrite <- !app_assoc. reflexivity.
    + apply all_of_app in HNa as [_ Hc]. inversion Hc; subst. apply Hn. assumption.
  - simpl. constructor; [reflexivity|]. apply all_of_app. split.
    + unfold all_of in *. rewrite Forall_forall in *. intros c Hc.
      apply Hn, Hp, HPa, Hc.
    + constructor; [reflexivity|].
      unfold all_of in *. rewrite Forall_forall in *. intros c Hc. apply Hn, HNa, Hc.
Qed.

Lemma validateF5Name_accepted_path_witness :
  accepted (validateF5Name (VString (runes "/Common/my-pool")) (runes "pool")) /\
  strings_Count (runes "/Common/my-pool") 47 = 2%nat.
Proof.
  assert (H : accepted (validateF5Name (VString (runes "/Common/my-pool")) (runes "pool"))).
  { unfold accepted. vm_compute. reflexivity. }
  split; [exact H|].
  exact (proj1 (proj2
    (validateF5Name_accepted_path (runes "/Common/my-pool") (runes "pool") H))).
Defined.

(** No string is both an accepted partition name and an accepted object
    path: the first must not, the second must start with a slash. *)
Theorem partition_name_is_no_path (v field field' : GoString) :
  accepted (validatePartitionName (VString v) field) ->
  ~ accepted (validateF5Name (VString v) field') /\
  ~ accepted (validateF5NameWithDirectory (VString v) field').
Proof.
  intros H. apply validatePartitionName_accepts in H.
  destruct H as (c & rest & -> & Hc & _).
  split; intros H.
  - apply validateF5Name_accepts in H. destruct H as (P & N & E & _).
    simpl in E. injection E as -> _. contradiction.
  - apply validateF5NameWithDirectory_accepts in H.
    destruct H as [(P & D & N & E & _) | (P & N & E & _)];
      simpl in E; injection E as -> _; contradiction.
Qed.

Lemma partition_name_is_no_path_witness :
  accepted (validatePartitionName (VString (runes "Common")) (runes "partition")) /\
  ~ accepted (validateF5Name (VString (runes "Common")) (runes "name")).
Proof.
  assert (H : accepted (validatePartitionName (VString (runes "Common")) (runes "partition"))).
  { unfold accepted. vm_compute. reflexivity. }
  split; [exact H|].
  exact (proj1 (partition_name_is_no_path (runes "Common") (runes "partition")
                  (runes "name") H)).
Defined.

(** An accepted pool member always carries a port: it contains a colon
    and ends in a non-empty run of digits that something precedes. *)
Theorem validatePoolMemberName_port_required (v field : GoString) :
  accepted (validatePoolMemberName (VString v) field) ->
  (1 <= strings_Count v 58%N)%nat /\
  exists front port,
    v = front ++ port /\ front <> [] /\ port <> [] /\ all_of is_digit port.
Proof.
  intros H. apply validatePoolMemberName_accepts in H.
  destruct (Nat.leb 2 (strings_Count v 58)) eqn:E.
  - apply Nat.leb_le in E. split; [lia|].
    destruct H as (P & N & c & D & -> & _ & _ & _ & _ & _ & HD & HDa).
    exists (runes "/" ++ P ++ runes "/" ++ N ++ [c]), D.
    repeat split; try assumption.
    + rewrite <- !app_assoc. reflexivity.
    + discriminate.
  - destruct H as (h & p & -> & Hh & _ & Hp & Hpa). split.
    + rewrite strings_Count_app. simpl. lia.
    + exists (h ++ runes ":"), p. repeat split; try assumption.
      * rewrite <- app_assoc. reflexivity.
      * destruct h; discriminate.
Qed.

Lemma validatePoolMemberName_port_required_witness :
  accepted (validatePoolMemberName (VString (runes "1.1.1.1:80")) (runes "node")) /\
  (1 <= strings_Count (runes "1.1.1.1:80") 58%N)%nat.
Proof.
  assert (H : accepted (validatePoolMemberName (VString (runes "1.1.1.1:80")) (runes "node"))).
  { unfold accepted. vm_compute. reflexivity. }
  split; [exact H|].
  exact (proj1 (validatePoolMemberName_port_required (runes "1.1.1.1:80") (runes "node") H)).
Defined.

(** ** validateSetValues over unions and larger allowed sets *)

Lemma validateSetValues_accepts valid s field :
  validateSetValues valid (VSet s) field = Some ([], []) <-> s ⊆ valid.
Proof.
  unfold validateSetValues.
  destruct (Nat.eqb (Set_Len (Set_Intersection valid s)) (Set_Len s)) eqn:E; simpl.
  - apply Nat.eqb_eq, Set_Len_Intersection in E. split; auto.
  - apply Nat.eqb_neq in E. split; [discriminate|].
    intros H. apply Set_Len_Intersection in H. contradiction.
Qed.

(** The set-membership validator accepts a union exactly when it accepts
    both parts, accepts the empty set whatever is allowed, and keeps
    accepting a set when more values become allowed. *)
Theorem validateSetValues_union (valid valid' s1 s2 : gset GoString) (field : GoString) :
  (validateSetValues valid (VSet (s1 ∪ s2)) field = Some ([], []) <->
     validateSetValues valid (VSet s1) field = Some ([], []) /\
     validateSetValues valid (VSet s2) field = Some ([], [])) /\
  validateSetValues valid (VSet ∅) field = Some ([], []) /\
  (valid ⊆ valid' /\ validateSetValues valid (VSet s1) field = Some ([], []) ->
   validateSetValues valid' (VSet s1) field = Some ([], [])).
Proof.
  rewrite !validateSetValues_accepts. split; [|split].
  - apply union_subseteq.
  - apply empty_subseteq.
  - intros [H1 H2]. etransitivity; eassumption.
Qed.

(** * Further properties of the session factory *)

(** [validateConnection] asks for the self-IPs of the client it is given,
    once, logs at most one line, and returns exactly the error of that
    request: a nil result without error is no error. *)
Theorem validateConnection_runs (c : Config) (client : pointer) (tr : list Obs)
    (r : error_value) :
  exec (validateConnection c client) tr r <->
  exists t err, tr = ObsSelfIPs client t err :: liveness_log t err /\ r = err.
Proof.
  unfold validateConnection, mbind, mret, Prog_bind, Prog_ret, call. split.
  - intros Hex. steps; cbn [fst snd];
      match goal with
      | |- context [ObsSelfIPs _ ?t ?e :: _] => exists t, e
      end; split; reflexivity.
  - intros (t & err & -> & ->). cbn.
    exists (t, err), (liveness_log t err). split; [reflexivity|].
    destruct err as [e|]; [|destruct t as [a|]]; cbn.
    + exists tt, []. auto.
    + auto.
    + exists tt, []. auto.
Qed.

(** Without a login reference [Client] logs its start, builds a basic
    session from the fields of the configuration, never attempts token
    login, checks liveness on the very handle the constructor returned,
    and fails only if that check fails. *)
Theorem Client_basic_session (c : Config) (tr : list Obs) (r : pointer * error_value) :
  Address c <> [] -> Username c <> [] -> Password c <> [] ->
  LoginReference c = [] ->
  (exec (Client c) tr r <->
   exists b t err,
     tr = obs_info :: obs_session c b :: ObsSelfIPs b t err :: liveness_log t err /\
     r = liveness_result b err).
Proof.
  intros Ha Hu Hp Hl. unfold Client.
  rewrite (required_fields c Ha Hu Hp), Hl.
  unfold validateConnection, mbind, mret, Prog_bind, Prog_ret, call.
  cbn [nonempty is_empty negb]. split.
  - intros Hex. steps; cbn [fst snd];
      match goal with
      | |- context [ObsSelfIPs ?b ?t ?e :: _] => exists b, t, e
      end; split; reflexivity.
  - intros (b & t & err & -> & ->). cbn.
    exists tt, (obs_session c b :: ObsSelfIPs b t err :: liveness_log t err).
    split; [reflexivity|]. cbn.
    exists b, (ObsSelfIPs b t err :: liveness_log t err). split; [reflexivity|]. cbn.
    exists (t, err), (liveness_log t err). split; [reflexivity|].
    destruct err as [e|]; [|destruct t as [a|]]; cbn.
    + exists tt, []. auto.
    + auto.
    + exists tt, []. auto.
Qed.

Lemma Client_basic_session_witness :
  Address config_basic <> [] /\ Username config_basic <> [] /\
  Password config_basic <> [] /\ LoginReference config_basic = [] /\
  (exec (Client config_basic) trace_nil_result (Some 1, None) <->
   exists b t err,
     trace_nil_result
       = obs_info :: obs_session config_basic b :: ObsSelfIPs b t err :: liveness_log t err /\
     (Some 1, None) = liveness_result b err).
Proof.
  assert (Ha : Address config_basic <> []) by discriminate.
  assert (Hu : Username config_basic <> []) by discriminate.
  assert (Hp : Password config_basic <> []) by discriminate.
  repeat (split; [assumption || reflexivity|]).
  exact (Client_basic_session config_basic trace_nil_result (Some 1, None)
           Ha Hu Hp eq_refl).
Defined.

(** With a login reference [Client] logs its start and attempts token
    login with the fields of the configuration, never building a basic
    session.  A login error is logged and returned as it is, with no
    handle, and the liveness check is not made; otherwise liveness is
    checked on the handle token login returned. *)
Theorem Client_token_session (c : Config) (tr : list Obs) (r : pointer * error_value) :
  Address c <> [] -> Username c <> [] -> Password c <> [] ->
  LoginReference c <> [] ->
  (exec (Client c) tr r <->
   (exists b e,
      tr = [obs_info; obs_token c b (Some e);
            ObsPrintf "[ERROR] Error creating New Token Session %s " [e]] /\
      r = (None, Some e)) \/
   (exists b t err,
      tr = obs_info :: obs_token c b None :: ObsSelfIPs b t err :: liveness_log t err /\
      r = liveness_result b err)).
Proof.
  intros Ha Hu Hp Hl. unfold Client.
  rewrite (required_fields c Ha Hu Hp).
  apply nonempty_true in Hl. rewrite Hl.
  unfold validateConnection, mbind, mret, Prog_bind, Prog_ret, call. split.
  - intros Hex. steps; cbn [fst snd].
    all: try (left; eexists _, _; split; reflexivity).
    all: right;
      match goal with
      | |- context [ObsSelfIPs ?b ?t ?e :: _] => exists b, t, e
      end; split; reflexivity.
  - intros [(b & e & -> & ->) | (b & t & err & -> & ->)]; cbn.
    + exists tt, [obs_token c b (Some e);
                  ObsPrintf "[ERROR] Error creating New Token Session %s " [e]].
      split; [reflexivity|]. cbn.
      exists (b, Some e), [ObsPrintf "[ERROR] Error creating New Token Session %s " [e]].
      split; [reflexivity|]. cbn. exists tt, []. auto.
    + exists tt, (obs_token c b None :: ObsSelfIPs b t err :: liveness_log t err).
      split; [reflexivity|]. cbn.
      exists (b, None), (ObsSelfIPs b t err :: liveness_log t err).
      split; [reflexivity|]. cbn.
      exists (t, err), (liveness_log t err). split; [reflexivity|].
      destruct err as [e|]; [|destruct t as [a|]]; cbn.
      * exists tt, []. auto.
      * auto.
      * exists tt, []. auto.
Qed.

Lemma Client_token_session_witness :
  Address config_token <> [] /\ Username config_token <> [] /\
  Password config_token <> [] /\ LoginReference config_token <> [] /\
  exec (Client config_token) trace_login_failure (None, Some err_login).
Proof.
  assert (Ha : Address config_token <> []) by discriminate.
  assert (Hu : Username config_token <> []) by discriminate.
  assert (Hp : Password config_token <> []) by discriminate.
  assert (Hl : LoginReference config_token <> []) by discriminate.
  repeat (split; [assumption|]).
  apply (proj2 (Client_token_session config_token trace_login_failure
                  (None, Some err_login) Ha Hu Hp Hl)).
  left. exists None, err_login. split; reflexivity.
Defined.

(** Every error [Client] returns is either its own configuration error,
    returned before any call, or an error an external call returned,
    passed on unchanged. *)
Theorem Client_error_provenance (c : Config) (tr : list Obs)
    (r : pointer * error_value) (e : error) :
  exec (Client c) tr r ->
  snd r = Some e ->
  (tr = [] /\ e = err_missing_fields) \/
  (exists b, In (obs_token c b (Some e)) tr) \/
  (exists b t, In (ObsSelfIPs b t (Some e)) tr).
Proof.
  intros Hex Hr. unfold Client in Hex.
  unfold validateConnection, mbind, mret, Prog_bind, Prog_ret, call in Hex.
  steps; simpl in Hr; try discriminate Hr; injection Hr as <-.
  all: first
    [ solve [left; split; reflexivity]
    | solve [right; left; eexists; unfold obs_token; simpl; eauto 6]
    | solve [right; right; eexists _, _; simpl; eauto 6] ].
Qed.

Lemma Client_error_provenance_witness :
  exec (Client config_token) trace_login_failure (None, Some err_login) /\
  snd (@None N, Some err_login) = Some err_login /\
  ((trace_login_failure = [] /\ err_login = err_missing_fields) \/
   (exists b, In (obs_token config_token b (Some err_login)) trace_login_failure) \/
   (exists b t, In (ObsSelfIPs b t (Some err_login)) trace_login_failure)).
Proof.
  assert (Hex : exec (Client config_token) trace_login_failure (None, Some err_login)).
  { cbn. exists tt, (tl trace_login_failure). split; [reflexivity|]. cbn.
    exists (None, Some err_login), (tl (tl trace_login_failure)).
    split; [reflexivity|]. cbn. exists tt, []. auto. }
  split; [exact Hex|]. split; [reflexivity|].
  exact (Client_error_provenance config_token trace_login_failure
           (None, Some err_login) err_login Hex eq_refl).
Defined.

(** * getDeviceUri *)

Module SubmatchFacts.
Import Submatch.

Lemma run_literal_strip l k pre s caps :
  run_literal l k pre s caps =
    match strip l s with
    | Some s' => k (rev l ++ pre) s' caps
    | None => None
    end.
Proof.
  revert pre s. induction l as [|x l IH]; intros pre s; simpl; [reflexivity|].
  destruct s as [|c s]; [reflexivity|].
  destruct (rune_eqb c x) eqn:E; [|reflexivity].
  apply RegexpFacts.rune_eqb_eq in E. subst. rewrite IH, <- app_assoc. reflexivity.
Qed.

Lemma strip_app l s s' : strip l s = Some s' <-> s = l ++ s'.
Proof.
  revert s. induction l as [|x l IH]; intros s; simpl.
  - split; congruence.
  - destruct s as [|c s]; [split; discriminate|].
    destruct (rune_eqb c x) eqn:E.
    + apply RegexpFacts.rune_eqb_eq in E. subst. rewrite IH. split; congruence.
    + split; [discriminate|]. intros H. injection H as -> _.
      unfold rune_eqb in E. rewrite N.eqb_refl in E. discriminate.
Qed.

Lemma run_of_after_run p s : s = run_of p s ++ after_run p s.
Proof.
  induction s as [|c s IH]; simpl; [reflexivity|].
  destruct (p c); simpl; congruence.
Qed.

Lemma run_of_all p s : all_of p (run_of p s).
Proof.
  induction s as [|c s IH]; simpl; [constructor|].
  destruct (p c) eqn:E; constructor; assumption.
Qed.

Lemma after_run_stops p s : stops p (after_run p s).
Proof.
  induction s as [|c s IH]; simpl; [exact I|].
  destruct (p c) eqn:E; [exact IH | exact E].
Qed.

(** A greedy repetition followed by something that succeeds after the
    longest run stops there. *)
Lemma run_star_greedy p k pre s caps x :
  k (rev (run_of p s) ++ pre) (after_run p s) caps = Some x ->
  run_star p k pre s caps = Some x.
Proof.
  revert pre. induction s as [|c s IH]; intros pre; simpl; [auto|].
  destruct (p c); [|auto].
  simpl. rewrite <- app_assoc. simpl. intros H. rewrite (IH _ H). reflexivity.
Qed.

Lemma between_app pre u : between pre (rev u ++ pre) = u.
Proof.
  unfold between. rewrite length_app, length_rev.
  replace (length u + length pre - length pre)%nat with (length (rev u))
    by (rewrite length_rev; lia).
  rewrite firstn_app, firstn_all, Nat.sub_diag. simpl.
  rewrite app_nil_r. apply rev_involutive.
Qed.

Lemma between_cons pre u c : between pre (rev u ++ c :: pre) = c :: u.
Proof.
  rewrite <- (between_app pre (c :: u)). simpl. rewrite <- app_assoc. reflexivity.
Qed.

Lemma between_nil pre' : between [] pre' = rev pre'.
Proof.
  unfold between. simpl. rewrite Nat.sub_0_r, firstn_all. reflexivity.
Qed.

End SubmatchFacts.

Module DeviceUriFacts.
Import Submatch SubmatchFacts.

Lemma host_class_chars c : class_matches host_class c = host_char c.
Proof.
  unfold host_class, host_char, class_matches. simpl.
  destruct (rune_eqb c 58), (rune_eqb c 47), (is_space c); reflexivity.
Qed.

Lemma run_star_ext p q k pre s caps :
  (forall c, p c = q c) -> run_star p k pre s caps = run_star q k pre s caps.
Proof.
  intros E. revert pre. induction s as [|c s IH]; intros pre; simpl; [reflexivity|].
  rewrite E, IH. reflexivity.
Qed.

Lemma strip_cat l1 l2 s :
  strip (l1 ++ l2) s =
    match strip l1 s with Some s' => strip l2 s' | None => None end.
Proof.
  revert s. induction l1 as [|x l1 IH]; intros s; simpl; [reflexivity|].
  destruct s as [|c s]; [reflexivity|]. destruct (rune_eqb c x); [apply IH | reflexivity].
Qed.

Lemma run_rest pre rest caps :
  run re_uri_rest pre rest caps (fun pre' _ caps' => Some (between [] pre', caps')) =
    match strip (runes "://") rest with
    | None => None
    | Some r =>
        match run_of host_char r with
        | [] => None
        | host =>
            match strip (runes ":") (after_run host_char r) with
            | Some r' =>
                Some (rev pre ++ runes "://" ++ host ++ runes ":" ++ run_of is_digit r',
                      <[2%nat := Some (run_of is_digit r')]> (<[1%nat := Some host]> caps))
            | None =>
                Some (rev pre ++ runes "://" ++ host, <[1%nat := Some host]> caps)
            end
        end
    end.
Proof.
  unfold re_uri_rest, re_uri_authority. cbn [run].
  rewrite run_literal_strip.
  change (runes "://") with (runes ":" ++ runes "//"). rewrite strip_cat.
  destruct (strip (runes ":") rest) as [r1|]; [|reflexivity].
  rewrite run_literal_strip.
  destruct (strip (runes "//") r1) as [r|]; [|reflexivity].
  unfold run_plus. destruct r as [|c r]; [reflexivity|].
  rewrite host_class_chars. cbn [run_of after_run].
  destruct (host_char c) eqn:Ec; [|reflexivity].
  rewrite (run_star_ext _ host_char) by apply host_class_chars.
  destruct (strip (runes ":") (after_run host_char r)) as [r'|] eqn:Es;
    apply run_star_greedy; rewrite run_literal_strip, Es.
  - rewrite (run_star_ext _ is_digit) by apply Shapes.digit_chars.
    erewrite run_star_greedy; [|reflexivity]. cbn [or_else].
    rewrite between_nil, between_app, between_cons.
    f_equal. f_equal.
    rewrite !rev_app_distr, !rev_involutive. simpl.
    rewrite <- !app_assoc. reflexivity.
  - cbn [or_else]. rewrite between_nil, between_cons.
    f_equal. f_equal.
    rewrite !rev_app_distr, !rev_involutive. simpl.
    rewrite <- !app_assoc. reflexivity.
Qed.

Lemma find_later r groups pre s :
  pre <> [] -> find (Concat BeginText r) groups pre s = None.
Proof.
  revert pre. induction s as [|c s IH]; intros pre Hpre;
    destruct pre as [|x pre]; try contradiction; simpl.
  - reflexivity.
  - apply IH. discriminate.
Qed.

Lemma find_anchored r groups s :
  find (Concat BeginText r) groups [] s =
    run (Concat BeginText r) [] s (replicate groups None)
      (fun pre' _ caps => Some (between [] pre', caps)).
Proof.
  destruct s as [|c s]; cbn [find].
  - destruct (run _ _ _ _ _); reflexivity.
  - rewrite find_later by discriminate. destruct (run _ _ _ _ _); reflexivity.
Qed.

(** [FindStringSubmatch] with the pattern of [getDeviceUri] is the
    left-to-right reading of the pattern. *)
Lemma FindStringSubmatch_reading str :
  FindStringSubmatch re_DeviceUri 3 str =
    match uri_reading str with Some l => l | None => [] end.
Proof.
  unfold FindStringSubmatch, re_DeviceUri. rewrite find_anchored.
  unfold uri_reading, try_scheme, uri_after_scheme, re_uri_scheme.
  change (runes "https") with (runes "http" ++ runes "s").
  change (runes "sftp") with (runes "s" ++ runes "ftp").
  rewrite !strip_cat.
  cbn [run is_empty replicate].
  repeat first
    [ rewrite run_literal_strip
    | rewrite run_rest
    | progress cbn [or_else first_of]
    | match goal with
      | |- context [match strip ?l ?s with _ => _ end] => destruct (strip l s) eqn:?
      | |- context [match run_of ?p ?s with _ => _ end] => destruct (run_of p s) eqn:?
      end ].
  all: reflexivity.
Qed.

Lemma strip_one_none x s :
  strip [x] s = None -> stops (fun c => rune_eqb c x) s.
Proof.
  destruct s as [|c s]; simpl; [auto|]. destruct (rune_eqb c x); [discriminate | auto].
Qed.

Lemma run_of_exact p u v : all_of p u -> stops p v -> run_of p (u ++ v) = u.
Proof.
  intros Hu Hv. induction Hu as [|c u Hc _ IH]; simpl.
  - destruct v as [|c v]; simpl in *; [reflexivity|]. rewrite Hv. reflexivity.
  - rewrite Hc, IH. reflexivity.
Qed.

Lemma after_run_exact p u v : all_of p u -> stops p v -> after_run p (u ++ v) = v.
Proof.
  intros Hu Hv. induction Hu as [|c u Hc _ IH]; simpl.
  - destruct v as [|c v]; simpl in *; [reflexivity|]. rewrite Hv. reflexivity.
  - rewrite Hc, IH. reflexivity.
Qed.

(** What one scheme's reading returns. *)
Lemma try_scheme_sound scheme str l :
  try_scheme scheme str = Some l ->
  exists host port tail rest,
    l = [scheme ++ runes "://" ++ host ++ tail; scheme; host; port] /\
    str = scheme ++ runes "://" ++ host ++ tail ++ rest /\
    host <> [] /\ all_of host_char host /\ all_of is_digit port /\
    ((tail = runes ":" ++ port /\ stops is_digit rest) \/
     (tail = [] /\ port = [] /\ stops host_char rest /\
      stops (fun c => rune_eqb c 58) rest)).
Proof.
  unfold try_scheme, uri_after_scheme.
  destruct (strip scheme str) as [rest0|] eqn:E0; [|discriminate].
  apply strip_app in E0. subst str.
  destruct (strip (runes "://") rest0) as [r|] eqn:E1; [|discriminate].
  apply strip_app in E1. subst rest0.
  pose proof (run_of_after_run host_char r) as Hr.
  pose proof (run_of_all host_char r) as Hh.
  pose proof (after_run_stops host_char r) as Hs.
  destruct (run_of host_char r) as [|c h] eqn:Eh; [discriminate|].
  destruct (strip (runes ":") (after_run host_char r)) as [r'|] eqn:E2;
    intros H; injection H as <-.
  - apply strip_app in E2.
    exists (c :: h), (run_of is_digit r'), (runes ":" ++ run_of is_digit r'),
      (after_run is_digit r').
    repeat split; try discriminate; try assumption.
    + rewrite Hr, E2. rewrite (run_of_after_run is_digit r') at 1.
      rewrite <- ?app_assoc. reflexivity.
    + apply run_of_all.
    + left. split; [reflexivity | apply after_run_stops].
  - exists (c :: h), [], [], (after_run host_char r).
    repeat split; try discriminate; try assumption.
    + rewrite app_nil_r. reflexivity.
    + rewrite Hr at 1. rewrite <- ?app_assoc. reflexivity.
    + constructor.
    + right. repeat split; [assumption|]. apply strip_one_none. exact E2.
Qed.

Lemma uri_reading_scheme str l :
  uri_reading str = Some l -> exists scheme, In scheme schemes /\ try_scheme scheme str = Some l.
Proof.
  unfold uri_reading, first_of, schemes.
  destruct (try_scheme (runes "https") str) eqn:E1;
    [intros [= <-]; eexists; split; [|exact E1]; simpl; auto|].
  destruct (try_scheme (runes "http") str) eqn:E2;
    [intros [= <-]; eexists; split; [|exact E2]; simpl; auto|].
  destruct (try_scheme (runes "sftp") str) eqn:E3;
    [intros [= <-]; eexists; split; [|exact E3]; simpl; auto|].
  intros E4. eexists; split; [|exact E4]; simpl; auto.
Qed.

Lemma uri_reading_some str scheme :
  In scheme schemes -> try_scheme scheme str <> None -> uri_reading str <> None.
Proof.
  unfold uri_reading, first_of, schemes. simpl.
  intros [<- | [<- | [<- | [<- | []]]]] H;
    repeat match goal with
      | |- context [match ?x with _ => _ end] => destruct x
      end; congruence.
Qed.

Lemma getDeviceUri_reading str :
  getDeviceUri str = (match uri_reading str with Some l => l | None => [] end, None).
Proof.
  unfold getDeviceUri. rewrite FindStringSubmatch_reading.
  destruct (uri_reading str) as [l|] eqn:E; [|reflexivity].
  apply uri_reading_scheme in E as (scheme & _ & E).
  apply try_scheme_sound in E as (host & port & tail & rest & -> & _). reflexivity.
Qed.

End DeviceUriFacts.

Import SubmatchFacts DeviceUriFacts.

(** [getDeviceUri] never returns an error.  Its result is empty, or it has
    exactly four entries: the matched text, the scheme, the host and the
    port.  The scheme is one of https, http, sftp and ftp; the matched
    text is a prefix of the input and reads scheme://host or
    scheme://host:port; the host is the longest non-empty run of runes
    other than colon, slash and whitespace, and the port the longest run
    of digits after the colon, empty when there is none or when no colon
    follows the host. *)
Theorem getDeviceUri_parts (str : GoString) :
  snd (getDeviceUri str) = None /\
  (fst (getDeviceUri str) = [] \/
   exists scheme host port tail rest,
     fst (getDeviceUri str) = [scheme ++ runes "://" ++ host ++ tail; scheme; host; port] /\
     str = scheme ++ runes "://" ++ host ++ tail ++ rest /\
     In scheme schemes /\
     host <> [] /\ all_of host_char host /\ all_of is_digit port /\
     ((tail = runes ":" ++ port /\ stops is_digit rest) \/
      (tail = [] /\ port = [] /\ stops host_char rest /\
       stops (fun c => rune_eqb c 58) rest))).
Proof.
  rewrite getDeviceUri_reading. split; [reflexivity|]. simpl.
  destruct (uri_reading str) as [l|] eqn:E; [right | left; reflexivity].
  apply uri_reading_scheme in E as (scheme & Hs & E).
  apply try_scheme_sound in E as (host & port & tail & rest & -> & H).
  exists scheme, host, port, tail, rest. tauto.
Qed.

(** [getDeviceUri] finds something exactly when the input begins with one
    of the four schemes, then [://], then a rune that can start a host;
    in every other case it returns the empty result, not an error. *)
Theorem getDeviceUri_matches (str : GoString) :
  fst (getDeviceUri str) <> [] <->
  exists scheme c rest,
    In scheme schemes /\ str = scheme ++ runes "://" ++ c :: rest /\ host_char c = true.
Proof.
  rewrite getDeviceUri_reading. cbn [fst]. split.
  - destruct (uri_reading str) as [l|] eqn:E; [intros _ | congruence].
    apply uri_reading_scheme in E as (scheme & Hs & E).
    apply try_scheme_sound in E
      as (host & port & tail & rest & _ & -> & Hh & Hha & _).
    destruct host as [|c host]; [contradiction|].
    exists scheme, c, (host ++ tail ++ rest). repeat split; [assumption|].
    inversion Hha; assumption.
  - intros (scheme & c & rest & Hs & -> & Hc).
    assert (H : try_scheme scheme (scheme ++ runes "://" ++ c :: rest) <> None).
    { unfold try_scheme, uri_after_scheme.
      rewrite (proj2 (strip_app scheme _ (runes "://" ++ c :: rest)) eq_refl).
      rewrite (proj2 (strip_app (runes "://") _ (c :: rest)) eq_refl).
      cbn [run_of]. rewrite Hc.
      destruct (strip (runes ":") (after_run host_char (c :: rest))); discriminate. }
    pose proof (uri_reading_some _ scheme Hs H) as Hr.
    destruct (uri_reading (scheme ++ runes "://" ++ c :: rest)) as [l|] eqn:E;
      [|congruence].
    apply uri_reading_scheme in E as (scheme' & _ & E).
    apply try_scheme_sound in E as (? & ? & ? & ? & -> & _). discriminate.
Qed.

Lemma host_char_colon : host_char 58 = false.
Proof. reflexivity. Qed.

Lemma try_scheme_exact scheme host port tail :
  host <> [] -> all_of host_char host -> all_of is_digit port ->
  (tail = runes ":" ++ port \/ (tail = [] /\ port = [])) ->
  try_scheme scheme (scheme ++ runes "://" ++ host ++ tail)
    = Some [scheme ++ runes "://" ++ host ++ tail; scheme; host; port].
Proof.
  intros Hh Hha Hp Ht. unfold try_scheme, uri_after_scheme.
  rewrite (proj2 (strip_app scheme _ (runes "://" ++ host ++ tail)) eq_refl).
  rewrite (proj2 (strip_app (runes "://") _ (host ++ tail)) eq_refl).
  assert (Hst : stops host_char tail).
  { destruct Ht as [-> | [-> _]]; simpl; auto. }
  rewrite (run_of_exact _ _ _ Hha Hst), (after_run_exact _ _ _ Hha Hst).
  destruct host as [|c host]; [contradiction|].
  destruct Ht as [-> | [-> ->]].
  - rewrite (proj2 (strip_app (runes ":") _ port) eq_refl).
    rewrite <- (app_nil_r port) at 1 2.
    rewrite (run_of_exact is_digit port [] Hp I). reflexivity.
  - simpl. rewrite !app_nil_r. reflexivity.
Qed.

Lemma uri_reading_exact scheme s l :
  In scheme schemes ->
  try_scheme scheme (scheme ++ runes "://" ++ s) = Some l ->
  uri_reading (scheme ++ runes "://" ++ s) = Some l.
Proof.
  unfold schemes. intros [<- | [<- | [<- | [<- | []]]]] Ex;
    unfold uri_reading, first_of.
  - rewrite Ex. reflexivity.
  - replace (try_scheme (runes "https") (runes "http" ++ runes "://" ++ s))
      with (@None (list GoString)) by reflexivity.
    rewrite Ex. reflexivity.
  - replace (try_scheme (runes "https") (runes "sftp" ++ runes "://" ++ s))
      with (@None (list GoString)) by reflexivity.
    replace (try_scheme (runes "http") (runes "sftp" ++ runes "://" ++ s))
      with (@None (list GoString)) by reflexivity.
    rewrite Ex. reflexivity.
  - replace (try_scheme (runes "https") (runes "ftp" ++ runes "://" ++ s))
      with (@None (list GoString)) by reflexivity.
    replace (try_scheme (runes "http") (runes "ftp" ++ runes "://" ++ s))
      with (@None (list GoString)) by reflexivity.
    replace (try_scheme (runes "sftp") (runes "ftp" ++ runes "://" ++ s))
      with (@None (list GoString)) by reflexivity.
    rewrite Ex. reflexivity.
Qed.

(** Parsing is stable: the text [getDeviceUri] matched, given back to it,
    yields the same four entries. *)
Theorem getDeviceUri_round_trip (str text scheme host port : GoString) :
  fst (getDeviceUri str) = [text; scheme; host; port] ->
  fst (getDeviceUri text) = [text; scheme; host; port].
Proof.
  rewrite !getDeviceUri_reading. cbn [fst].
  destruct (uri_reading str) as [l|] eqn:E; [|discriminate].
  intros ->.
  apply uri_reading_scheme in E as (scheme' & Hs & E).
  apply try_scheme_sound in E
    as (host' & port' & tail & rest & El & _ & Hh & Hha & Hp & Ht).
  injection El as -> -> -> ->.
  assert (Ht' : tail = runes ":" ++ port' \/ (tail = [] /\ port' = [])) by tauto.
  pose proof (try_scheme_exact scheme' host' port' tail Hh Hha Hp Ht') as Ex.
  change (match uri_reading (scheme' ++ runes "://" ++ host' ++ tail) with
          | Some l => l
          | None => []
          end = [scheme' ++ runes "://" ++ host' ++ tail; scheme'; host'; port']).
  rewrite (uri_reading_exact _ _ _ Hs Ex). reflexivity.
Qed.

Lemma getDeviceUri_round_trip_witness :
  fst (getDeviceUri (runes "https://bigip.example.com:8443/mgmt/tm"))
    = [runes "https://bigip.example.com:8443"; runes "https";
       runes "bigip.example.com"; runes "8443"] /\
  fst (getDeviceUri (runes "https://bigip.example.com:8443"))
    = [runes "https://bigip.example.com:8443"; runes "https";
       runes "bigip.example.com"; runes "8443"].
Proof.
  assert (H : fst (getDeviceUri (runes "https://bigip.example.com:8443/mgmt/tm"))
    = [runes "https://bigip.example.com:8443"; runes "https";
       runes "bigip.example.com"; runes "8443"]).
  { vm_compute. reflexivity. }
  split; [exact H|].
  exact (getDeviceUri_round_trip _ _ _ _ _ H).
Defined.
